(** * A shallow embedding of the first-person demo engine

    The development follows the JavaScript sources:
    - [core/Game.js]: the driver (world collection, per-frame tick);
    - [core/Input.js]: keyboard and mouse state;
    - [components/Player.js], [components/Enemy.js], [components/Ground.js]:
      the three entity classes.

    Conventions of the embedding.
    - A JavaScript number is a real number ([R]) in the world model:
      arithmetic is exact, with no NaN, no infinity and no rounding.  The
      properties stated over it are about order, clamping and which
      fields and objects a method writes, not about the exact value of a
      norm.  [x || d] on a number picks [d] exactly when [x] is omitted or
      zero.
    - The length of the normalized movement direction does depend on
      rounding; that computation is embedded a second time over binary64
      numbers ([Vector3f], [Player_normalizedDirection64]).
    - Objects live in a store ([gmap Ref Obj]) and are named by reference, so
      that an enemy's [target] and the entries of the world collection alias
      the objects they point to.
    - A method is a function [World -> World] taking [this] as a reference.
    - [Date.now()] and [clock.getDelta()] are inputs ([world_now], the
      [delta] argument of [Game_animate]); [Math.random()] results are
      arguments of the constructor that draws them.
    - Method calls that the properties talk about are recorded in a ghost
      trace ([world_trace]).  Rendering and [console.log] output are left
      out; the two text regions written by [Player.updateUI] are kept. *)

From Stdlib Require Import PrimFloat.
From Stdlib Require Import Reals Lra Lia ZArith.
From stdpp Require Import base option list gmap strings.

(** ** Numbers *)

Open Scope R_scope.

#[global] Instance Rle_decision (x y : R) : Decision (x <= y)%R := Rle_dec x y.
#[global] Instance Rlt_decision (x y : R) : Decision (x < y)%R := Rlt_dec x y.
#[global] Instance Rge_decision (x y : R) : Decision (x >= y)%R := Rge_dec x y.
#[global] Instance Rgt_decision (x y : R) : Decision (x > y)%R := Rgt_dec x y.
#[global] Instance R_eq_decision : EqDecision R := Req_dec_T.

(** [options.field || dflt] for a numeric option: an omitted field reads
    [undefined], and [undefined] and [0] are the falsy numbers. *)
Definition num_or (field : option R) (dflt : R) : R :=
  match field with
  | Some x => if decide (x = 0%R) then dflt else x
  | None => dflt
  end.

(** [options.field || dflt] for an object-valued option. *)
Definition ref_or {A} (field : option A) (dflt : option A) : option A :=
  match field with
  | Some x => Some x
  | None => dflt
  end.

(** ** THREE.Vector3

    The graphics library is not part of the repository; the operations the
    entity classes call are written out from the library's documented
    behaviour: [length] is the Euclidean norm, [normalize] divides by
    [length() || 1], [applyAxisAngle] about the Y axis is the plane rotation
    of the X and Z components. *)
Module Vector3.

Record t := mk { x : R; y : R; z : R }.

Definition zero : t := mk 0 0 0.

Definition set_x (v : t) (a : R) : t := mk a (y v) (z v).
Definition set_y (v : t) (a : R) : t := mk (x v) a (z v).
Definition set_z (v : t) (a : R) : t := mk (x v) (y v) a.

Definition add (a b : t) : t := mk (x a + x b) (y a + y b) (z a + z b).
Definition subVectors (a b : t) : t := mk (x a - x b) (y a - y b) (z a - z b).

Definition lengthSq (v : t) : R := x v * x v + y v * y v + z v * z v.
Definition length (v : t) : R := sqrt (lengthSq v).

Definition multiplyScalar (v : t) (s : R) : t := mk (x v * s) (y v * s) (z v * s).
Definition divideScalar (v : t) (s : R) : t := multiplyScalar v (1 / s).

(** [this.divideScalar(this.length() || 1)] *)
Definition normalize (v : t) : t :=
  divideScalar v (if decide (length v = 0) then 1 else length v).

Definition distanceTo (a b : t) : R := length (subVectors a b).

(** [v.applyAxisAngle(new THREE.Vector3(0, 1, 0), angle)] *)
Definition applyAxisAngleY (v : t) (angle : R) : t :=
  mk (x v * cos angle + z v * sin angle) (y v) (z v * cos angle - x v * sin angle).

(** [v.applyEuler(new THREE.Euler(pitch, yaw, 0, 'YXZ'))]: pitch about X,
    then yaw about Y. *)
Definition applyEulerYXZ (v : t) (pitch yaw : R) : t :=
  applyAxisAngleY
    (mk (x v) (y v * cos pitch - z v * sin pitch) (y v * sin pitch + z v * cos pitch))
    yaw.

End Vector3.

(** ** THREE.Vector3 over binary64

    The same operations on IEEE 754 double-precision numbers, the numbers
    JavaScript computes with: every sum, product, quotient and square root
    is rounded to the nearest double. *)
Module Vector3f.

Record t := mk { x : float; y : float; z : float }.

Definition zero : t := mk 0%float 0%float 0%float.

Definition set_x (v : t) (a : float) : t := mk a (y v) (z v).
Definition set_z (v : t) (a : float) : t := mk (x v) (y v) a.

(** [Math.sqrt(this.x * this.x + this.y * this.y + this.z * this.z)] *)
Definition length (v : t) : float :=
  PrimFloat.sqrt (x v * x v + y v * y v + z v * z v)%float.

Definition multiplyScalar (v : t) (s : float) : t :=
  mk (x v * s)%float (y v * s)%float (z v * s)%float.
Definition divideScalar (v : t) (s : float) : t :=
  multiplyScalar v (1 / s)%float.

(** [s || 1]: zero of either sign and NaN are the falsy numbers. *)
Definition or_one (s : float) : float :=
  if orb (PrimFloat.eqb s 0%float) (PrimFloat.is_nan s) then 1%float else s.

(** [this.divideScalar(this.length() || 1)] *)
Definition normalize (v : t) : t := divideScalar v (or_one (length v)).

End Vector3f.

(** ** core/Input.js

    The key table, the mouse delta and the pointer-lock flag; the absolute
    mouse position and the button table are read by no entity. *)
Module Input.

Record t := mk {
  keys : gmap string bool;
  mouse_deltaX : R;
  mouse_deltaY : R;
  pointerLocked : bool
}.

(** The state built by the constructor. *)
Definition new : t := mk ∅ 0 0 false.

(** The [keydown] and [keyup] listeners. *)
Definition keydown (code : string) (i : t) : t :=
  mk (<[code := true]> (keys i)) (mouse_deltaX i) (mouse_deltaY i) (pointerLocked i).
Definition keyup (code : string) (i : t) : t :=
  mk (<[code := false]> (keys i)) (mouse_deltaX i) (mouse_deltaY i) (pointerLocked i).

(** [return this.keys[keyCode] || false] *)
Definition isKeyDown (keyCode : string) (i : t) : bool :=
  match keys i !! keyCode with
  | Some b => b
  | None => false
  end.

(** [getMouseDelta]: returns the delta and resets it. *)
Definition getMouseDelta (i : t) : (R * R) * t :=
  ((mouse_deltaX i, mouse_deltaY i), mk (keys i) 0 0 (pointerLocked i)).

(** The [mousemove] listener: with the pointer locked the delta is set to
    [e.movementX || 0] and [e.movementY || 0]; without the lock only the
    absolute position, which the record leaves out, is written. *)
Definition mousemove (movementX movementY : option R) (i : t) : t :=
  if pointerLocked i
  then mk (keys i) (num_or movementX 0) (num_or movementY 0) (pointerLocked i)
  else i.

(** The [pointerlockchange] listener; [locked] is the value of
    [document.pointerLockElement === document.body]. *)
Definition pointerlockchange (locked : bool) (i : t) : t :=
  mk (keys i) (mouse_deltaX i) (mouse_deltaY i) locked.

End Input.

(** ** Objects and the world *)

(** Object identity: a reference into the store. *)
Definition Ref := nat.

(** [components/Ground.js]: the fields fixed by the constructor and the
    driver reference stored by [init]. *)
Record Ground := mkGround {
  ground_size : R;
  ground_color : R;
  ground_game : bool
}.

(** [components/Player.js]: [player_position] is [mesh.position],
    [player_rotation_x] and [player_rotation_y] are the pitch and yaw of
    [rotation]; [player_game] and [player_input] tell whether [init] stored
    the driver and its input source. *)
Record Player := mkPlayer {
  player_speed : R;
  player_jumpForce : R;
  player_mouseSensitivity : R;
  player_health : R;
  player_score : R;
  player_position : Vector3.t;
  player_velocity : Vector3.t;
  player_onGround : bool;
  player_gravity : R;
  player_cameraOffset : Vector3.t;
  player_rotation_x : R;
  player_rotation_y : R;
  player_game : bool;
  player_input : bool
}.

(** [components/Enemy.js]: [enemy_position] is [mesh.position],
    [enemy_lookAt] the point last passed to [mesh.lookAt], [enemy_color] the
    material colour. *)
Record Enemy := mkEnemy {
  enemy_speed : R;
  enemy_target : option Ref;
  enemy_damage : R;
  enemy_attackRange : R;
  enemy_attackCooldown : R;
  enemy_timeSinceAttack : R;
  enemy_position : Vector3.t;
  enemy_lookAt : Vector3.t;
  enemy_color : R;
  enemy_alive : bool;
  enemy_game : bool
}.

(** What the [update] method of a caller-supplied object does: a sequence
    of calls on the driver and on other objects. *)
Inductive Action :=
| ARemove (r : Ref)                     (* game.remove(r) *)
| ATakeDamage (r : Ref) (amount : R).   (* r.takeDamage(amount), if r has it *)

(** Any other object handed to the driver: the driver's contract is "an
    entity with optional mesh, init, and update methods". *)
Record Plain := mkPlain {
  plain_mesh : option Vector3.t;
  plain_update : option (list Action)
}.

Inductive Obj :=
| OGround (g : Ground)
| OPlayer (p : Player)
| OEnemy (e : Enemy)
| OPlain (o : Plain).

(** Ghost trace of method calls. *)
Inductive Event :=
| CallUpdate (r : Ref)                      (* entity.update(delta, game) *)
| CallRemove (r : Ref)                      (* game.remove(r) *)
| CallAttack (r : Ref)                      (* r.attack() *)
| CallTakeDamage (r : Ref) (amount : R)     (* r.takeDamage(amount) *)
| CallAddScore (r : Ref) (points : R)       (* r.addScore(points) *)
| CallFlash (r : Ref).                      (* the colour flash of r.attack() *)

(** [core/Game.js]: the fields of the driver the entity code reads or
    writes.  [game_scene] lists the owners of the meshes attached to the
    scene; a callback registered with [onUpdate] is a sequence of actions. *)
Record Game := mkGame {
  game_entities : list Ref;
  game_scene : list Ref;
  game_updateCallbacks : list (list Action);
  game_isRunning : bool;
  game_camera_position : Vector3.t;
  game_camera_rotation : R * R;
  game_input : option Input.t
}.

Record World := mkWorld {
  world_heap : gmap Ref Obj;
  world_game : Game;
  world_ui_health : option R;
  world_ui_score : option R;
  world_timers : list (Ref * R);
  world_now : R;
  world_trace : list Event
}.

(** *** Field updates *)

Definition set_heap (h : gmap Ref Obj) (w : World) : World :=
  mkWorld h (world_game w) (world_ui_health w) (world_ui_score w)
          (world_timers w) (world_now w) (world_trace w).

Definition set_game (g : Game) (w : World) : World :=
  mkWorld (world_heap w) g (world_ui_health w) (world_ui_score w)
          (world_timers w) (world_now w) (world_trace w).

Definition set_ui (health score : option R) (w : World) : World :=
  mkWorld (world_heap w) (world_game w) health score
          (world_timers w) (world_now w) (world_trace w).

Definition set_timers (ts : list (Ref * R)) (w : World) : World :=
  mkWorld (world_heap w) (world_game w) (world_ui_health w) (world_ui_score w)
          ts (world_now w) (world_trace w).

Definition emit (ev : Event) (w : World) : World :=
  mkWorld (world_heap w) (world_game w) (world_ui_health w) (world_ui_score w)
          (world_timers w) (world_now w) (world_trace w ++ [ev]).

Definition set_obj (r : Ref) (o : Obj) (w : World) : World :=
  set_heap (<[r := o]> (world_heap w)) w.

Definition set_entities (l : list Ref) (g : Game) : Game :=
  mkGame l (game_scene g) (game_updateCallbacks g) (game_isRunning g)
         (game_camera_position g) (game_camera_rotation g) (game_input g).

Definition set_scene (l : list Ref) (g : Game) : Game :=
  mkGame (game_entities g) l (game_updateCallbacks g) (game_isRunning g)
         (game_camera_position g) (game_camera_rotation g) (game_input g).

Definition set_updateCallbacks (l : list (list Action)) (g : Game) : Game :=
  mkGame (game_entities g) (game_scene g) l (game_isRunning g)
         (game_camera_position g) (game_camera_rotation g) (game_input g).

Definition set_isRunning (b : bool) (g : Game) : Game :=
  mkGame (game_entities g) (game_scene g) (game_updateCallbacks g) b
         (game_camera_position g) (game_camera_rotation g) (game_input g).

Definition set_camera (pos : Vector3.t) (rot : R * R) (g : Game) : Game :=
  mkGame (game_entities g) (game_scene g) (game_updateCallbacks g) (game_isRunning g)
         pos rot (game_input g).

Definition set_input (i : option Input.t) (g : Game) : Game :=
  mkGame (game_entities g) (game_scene g) (game_updateCallbacks g) (game_isRunning g)
         (game_camera_position g) (game_camera_rotation g) i.

(** *** Reading objects through references *)

Definition get_player (w : World) (r : Ref) : option Player :=
  match world_heap w !! r with
  | Some (OPlayer p) => Some p
  | _ => None
  end.

Definition get_enemy (w : World) (r : Ref) : option Enemy :=
  match world_heap w !! r with
  | Some (OEnemy e) => Some e
  | _ => None
  end.

(** [entity.mesh]: the three classes build a mesh in their constructor (the
    ground's is never moved from the origin); a caller-supplied object may
    have none.  The result is [mesh.position]. *)
Definition obj_mesh (o : Obj) : option Vector3.t :=
  match o with
  | OGround _ => Some Vector3.zero
  | OPlayer p => Some (player_position p)
  | OEnemy e => Some (enemy_position e)
  | OPlain o => plain_mesh o
  end.

Definition mesh_of (w : World) (r : Ref) : option Vector3.t :=
  world_heap w !! r ≫= obj_mesh.

(** [entity.takeDamage] and [entity.addScore] as capabilities. *)
Definition has_takeDamage (o : Obj) : bool :=
  match o with
  | OPlayer _ | OEnemy _ => true
  | _ => false
  end.

Definition has_addScore (o : Obj) : bool :=
  match o with
  | OPlayer _ => true
  | _ => false
  end.

(** ** core/Game.js: membership *)

(** [array.indexOf(x)]: the first index holding [x], [None] for [-1]. *)
Definition indexOf (r : Ref) (l : list Ref) : option nat :=
  fst <$> list_find (λ x, x = r) l.

(** [scene.remove(mesh)] and [scene.add(mesh)] of the graphics library: a
    mesh is detached from its parent before it is attached. *)
Definition scene_remove (r : Ref) (l : list Ref) : list Ref :=
  match indexOf r l with
  | Some i => delete i l
  | None => l
  end.

Definition scene_add (r : Ref) (l : list Ref) : list Ref :=
  scene_remove r l ++ [r].

Definition Game_remove (entity : Ref) (w : World) : World :=
  let w := emit (CallRemove entity) w in
  let g := world_game w in
  match indexOf entity (game_entities g) with
  | Some index =>
      let g := set_entities (delete index (game_entities g)) g in
      let g := match mesh_of w entity with
               | Some _ => set_scene (scene_remove entity (game_scene g)) g
               | None => g
               end in
      set_game g w
  | None => w
  end.

Definition Game_onUpdate (callback : list Action) (w : World) : World :=
  let g := world_game w in
  set_game (set_updateCallbacks (game_updateCallbacks g ++ [callback]) g) w.

(** ** components/Ground.js *)

Record GroundOptions := mkGroundOptions {
  opt_ground_size : option R;
  opt_ground_color : option R
}.

Definition Ground_new (options : GroundOptions) : Ground :=
  mkGround (num_or (opt_ground_size options) 100)
           (num_or (opt_ground_color options) 3066993)   (* 0x2ecc71 *)
           false.

Definition Ground_init (this : Ref) (w : World) : World :=
  match world_heap w !! this with
  | Some (OGround g) =>
      set_obj this (OGround (mkGround (ground_size g) (ground_color g) true)) w
  | _ => w
  end.

(** [update] has an empty body. *)
Definition Ground_update (this : Ref) (delta : R) (w : World) : World := w.

(** ** components/Player.js *)

Record PlayerOptions := mkPlayerOptions {
  opt_player_speed : option R;
  opt_player_jumpForce : option R;
  opt_player_mouseSensitivity : option R;
  opt_player_health : option R
}.

(** [new Player()] *)
Definition no_PlayerOptions : PlayerOptions := mkPlayerOptions None None None None.

Definition Player_new (options : PlayerOptions) : Player :=
  mkPlayer (num_or (opt_player_speed options) 5)
           (num_or (opt_player_jumpForce options) 10)
           (num_or (opt_player_mouseSensitivity options) (2 / 1000))
           (num_or (opt_player_health options) 100)
           0
           Vector3.zero
           Vector3.zero
           false
           (-20)
           (Vector3.mk 0 (8 / 10) 0)
           0 0
           false false.

Definition set_player_health (h : R) (p : Player) : Player :=
  mkPlayer (player_speed p) (player_jumpForce p) (player_mouseSensitivity p)
           h (player_score p) (player_position p) (player_velocity p)
           (player_onGround p) (player_gravity p) (player_cameraOffset p)
           (player_rotation_x p) (player_rotation_y p) (player_game p) (player_input p).

Definition set_player_score (sc : R) (p : Player) : Player :=
  mkPlayer (player_speed p) (player_jumpForce p) (player_mouseSensitivity p)
           (player_health p) sc (player_position p) (player_velocity p)
           (player_onGround p) (player_gravity p) (player_cameraOffset p)
           (player_rotation_x p) (player_rotation_y p) (player_game p) (player_input p).

Definition set_player_position (pos : Vector3.t) (p : Player) : Player :=
  mkPlayer (player_speed p) (player_jumpForce p) (player_mouseSensitivity p)
           (player_health p) (player_score p) pos (player_velocity p)
           (player_onGround p) (player_gravity p) (player_cameraOffset p)
           (player_rotation_x p) (player_rotation_y p) (player_game p) (player_input p).

Definition set_player_velocity (v : Vector3.t) (p : Player) : Player :=
  mkPlayer (player_speed p) (player_jumpForce p) (player_mouseSensitivity p)
           (player_health p) (player_score p) (player_position p) v
           (player_onGround p) (player_gravity p) (player_cameraOffset p)
           (player_rotation_x p) (player_rotation_y p) (player_game p) (player_input p).

Definition set_player_onGround (b : bool) (p : Player) : Player :=
  mkPlayer (player_speed p) (player_jumpForce p) (player_mouseSensitivity p)
           (player_health p) (player_score p) (player_position p) (player_velocity p)
           b (player_gravity p) (player_cameraOffset p)
           (player_rotation_x p) (player_rotation_y p) (player_game p) (player_input p).

Definition set_player_rotation (pitch yaw : R) (p : Player) : Player :=
  mkPlayer (player_speed p) (player_jumpForce p) (player_mouseSensitivity p)
           (player_health p) (player_score p) (player_position p) (player_velocity p)
           (player_onGround p) (player_gravity p) (player_cameraOffset p)
           pitch yaw (player_game p) (player_input p).

Definition set_player_refs (game input : bool) (p : Player) : Player :=
  mkPlayer (player_speed p) (player_jumpForce p) (player_mouseSensitivity p)
           (player_health p) (player_score p) (player_position p) (player_velocity p)
           (player_onGround p) (player_gravity p) (player_cameraOffset p)
           (player_rotation_x p) (player_rotation_y p) game input.

(** *** Methods on the player's own fields *)

(** The mouse-look part of [handleInput]. *)
Definition Player_look (mouseDelta : R * R) (p : Player) : Player :=
  let yaw := player_rotation_y p - fst mouseDelta * player_mouseSensitivity p in
  let pitch := player_rotation_x p - snd mouseDelta * player_mouseSensitivity p in
  set_player_rotation (Rmax (- PI / 2) (Rmin (PI / 2) pitch)) yaw p.

(** The direction read from the movement keys ([handleInput], the four
    [isKeyDown] lines). *)
Definition Player_inputDirection (i : Input.t) : Vector3.t :=
  let d := Vector3.zero in
  let d := if Input.isKeyDown "KeyW" i then Vector3.set_z d (Vector3.z d - 1) else d in
  let d := if Input.isKeyDown "KeyS" i then Vector3.set_z d (Vector3.z d + 1) else d in
  let d := if Input.isKeyDown "KeyA" i then Vector3.set_x d (Vector3.x d - 1) else d in
  let d := if Input.isKeyDown "KeyD" i then Vector3.set_x d (Vector3.x d + 1) else d in
  d.




(** [handleInput] once [this.input] is known to be set. *)
Definition Player_handleInput (delta : R) (i : Input.t) (p : Player) : Player * Input.t :=
  let '(p, i) :=
    if Input.pointerLocked i
    then let '(mouseDelta, i) := Input.getMouseDelta i in (Player_look mouseDelta p, i)
    else (p, i) in
  let moveSpeed := player_speed p * delta in
  let direction := Player_inputDirection i in
  let p :=
    if decide (Vector3.length direction > 0)
    then
      let direction := Vector3.applyAxisAngleY (Vector3.normalize direction)
                                               (player_rotation_y p) in
      let pos := player_position p in
      set_player_position
        (Vector3.mk (Vector3.x pos + Vector3.x direction * moveSpeed)
                    (Vector3.y pos)
                    (Vector3.z pos + Vector3.z direction * moveSpeed)) p
    else p in
  let p :=
    if Input.isKeyDown "Space" i && player_onGround p
    then set_player_onGround false
           (set_player_velocity (Vector3.set_y (player_velocity p) (player_jumpForce p)) p)
    else p in
  (p, i).

Definition Player_applyPhysics (delta : R) (p : Player) : Player :=
  let vy := Vector3.y (player_velocity p) + player_gravity p * delta in
  let p := set_player_velocity (Vector3.set_y (player_velocity p) vy) p in
  let py := Vector3.y (player_position p) + Vector3.y (player_velocity p) * delta in
  let p := set_player_position (Vector3.set_y (player_position p) py) p in
  if decide (Vector3.y (player_position p) <= 1)
  then set_player_onGround true
         (set_player_velocity (Vector3.set_y (player_velocity p) 0)
            (set_player_position (Vector3.set_y (player_position p) 1) p))
  else p.

Definition Player_checkBounds (p : Player) : Player :=
  let bounds := 50 in
  let pos := player_position p in
  set_player_position
    (Vector3.mk (Rmax (- bounds) (Rmin bounds (Vector3.x pos)))
                (Vector3.y pos)
                (Rmax (- bounds) (Rmin bounds (Vector3.z pos)))) p.

(** [takeDamage] without its call to [updateUI]; [die] only logs. *)
Definition Player_damaged (amount : R) (p : Player) : Player :=
  let p := set_player_health (player_health p - amount) p in
  if decide (player_health p <= 0)
  then set_player_health 0 p
  else p.

(** [addScore] without its call to [updateUI]. *)
Definition Player_scored (points : R) (p : Player) : Player :=
  set_player_score (player_score p + points) p.

(** *** Methods on the world *)

Definition Player_updateUI (this : Ref) (w : World) : World :=
  match get_player w this with
  | Some p => set_ui (Some (player_health p)) (Some (player_score p)) w
  | None => w
  end.

Definition Player_updateCamera (this : Ref) (w : World) : World :=
  match get_player w this with
  | Some p =>
      if player_game p
      then
        let offset := Vector3.applyEulerYXZ (player_cameraOffset p)
                        (player_rotation_x p) (player_rotation_y p) in
        set_game (set_camera (Vector3.add (player_position p) offset)
                             (player_rotation_x p, player_rotation_y p)
                             (world_game w)) w
      else w
  | None => w
  end.

Definition Player_init (this : Ref) (w : World) : World :=
  match get_player w this with
  | Some p =>
      let p := set_player_refs true (bool_decide (is_Some (game_input (world_game w)))) p in
      let p := set_player_position (Vector3.mk 0 1 0) p in
      Player_updateUI this (Player_updateCamera this (set_obj this (OPlayer p) w))
  | None => w
  end.

Definition Player_update (this : Ref) (delta : R) (w : World) : World :=
  match get_player w this with
  | Some p =>
      (* handleInput *)
      let '(p, w) :=
        match (if player_input p then game_input (world_game w) else None) with
        | Some i =>
            let '(p, i) := Player_handleInput delta i p in
            (p, set_game (set_input (Some i) (world_game w)) w)
        | None => (p, w)
        end in
      (* applyPhysics *)
      let p := Player_applyPhysics delta p in
      (* updateCamera *)
      let w := Player_updateCamera this (set_obj this (OPlayer p) w) in
      (* checkBounds *)
      set_obj this (OPlayer (Player_checkBounds p)) w
  | None => w
  end.

Definition Player_takeDamage (this : Ref) (amount : R) (w : World) : World :=
  let w := emit (CallTakeDamage this amount) w in
  match get_player w this with
  | Some p => Player_updateUI this (set_obj this (OPlayer (Player_damaged amount p)) w)
  | None => w
  end.

Definition Player_addScore (this : Ref) (points : R) (w : World) : World :=
  let w := emit (CallAddScore this points) w in
  match get_player w this with
  | Some p => Player_updateUI this (set_obj this (OPlayer (Player_scored points p)) w)
  | None => w
  end.

(** ** components/Enemy.js *)

Record EnemyOptions := mkEnemyOptions {
  opt_enemy_speed : option R;
  opt_enemy_target : option Ref;
  opt_enemy_damage : option R;
  opt_enemy_attackRange : option R;
  opt_enemy_attackCooldown : option R;
  opt_enemy_position : option Vector3.t
}.

(** [new Enemy()] *)
Definition no_EnemyOptions : EnemyOptions :=
  mkEnemyOptions None None None None None None.

(** [setPosition]: [rnd1] and [rnd2] are the two [Math.random()] draws of
    the random branch. *)
Definition Enemy_spawnPosition (position : option Vector3.t) (rnd1 rnd2 : R) : Vector3.t :=
  match position with
  | Some pos => pos
  | None =>
      let angle := rnd1 * PI * 2 in
      let distance := 10 + rnd2 * 20 in
      Vector3.mk (cos angle * distance) (1 / 2) (sin angle * distance)
  end.

Definition Enemy_new (options : EnemyOptions) (rnd1 rnd2 : R) : Enemy :=
  mkEnemy (num_or (opt_enemy_speed options) 2)
          (ref_or (opt_enemy_target options) None)
          (num_or (opt_enemy_damage options) 10)
          (num_or (opt_enemy_attackRange options) 2)
          (num_or (opt_enemy_attackCooldown options) 1)
          0
          (Enemy_spawnPosition (opt_enemy_position options) rnd1 rnd2)
          Vector3.zero
          15158332                                     (* 0xe74c3c *)
          true
          false.

Definition set_enemy_timeSinceAttack (t : R) (e : Enemy) : Enemy :=
  mkEnemy (enemy_speed e) (enemy_target e) (enemy_damage e) (enemy_attackRange e)
          (enemy_attackCooldown e) t (enemy_position e) (enemy_lookAt e)
          (enemy_color e) (enemy_alive e) (enemy_game e).

Definition set_enemy_position (pos : Vector3.t) (e : Enemy) : Enemy :=
  mkEnemy (enemy_speed e) (enemy_target e) (enemy_damage e) (enemy_attackRange e)
          (enemy_attackCooldown e) (enemy_timeSinceAttack e) pos (enemy_lookAt e)
          (enemy_color e) (enemy_alive e) (enemy_game e).

Definition set_enemy_lookAt (pt : Vector3.t) (e : Enemy) : Enemy :=
  mkEnemy (enemy_speed e) (enemy_target e) (enemy_damage e) (enemy_attackRange e)
          (enemy_attackCooldown e) (enemy_timeSinceAttack e) (enemy_position e) pt
          (enemy_color e) (enemy_alive e) (enemy_game e).

Definition set_enemy_color (c : R) (e : Enemy) : Enemy :=
  mkEnemy (enemy_speed e) (enemy_target e) (enemy_damage e) (enemy_attackRange e)
          (enemy_attackCooldown e) (enemy_timeSinceAttack e) (enemy_position e)
          (enemy_lookAt e) c (enemy_alive e) (enemy_game e).

Definition set_enemy_alive (b : bool) (e : Enemy) : Enemy :=
  mkEnemy (enemy_speed e) (enemy_target e) (enemy_damage e) (enemy_attackRange e)
          (enemy_attackCooldown e) (enemy_timeSinceAttack e) (enemy_position e)
          (enemy_lookAt e) (enemy_color e) b (enemy_game e).

Definition set_enemy_game (b : bool) (e : Enemy) : Enemy :=
  mkEnemy (enemy_speed e) (enemy_target e) (enemy_damage e) (enemy_attackRange e)
          (enemy_attackCooldown e) (enemy_timeSinceAttack e) (enemy_position e)
          (enemy_lookAt e) (enemy_color e) (enemy_alive e) b.

(** An assignment to a field of [this]. *)
Definition modify_enemy (this : Ref) (f : Enemy → Enemy) (w : World) : World :=
  match get_enemy w this with
  | Some e => set_obj this (OEnemy (f e)) w
  | None => w
  end.

Definition Enemy_init (this : Ref) (w : World) : World :=
  modify_enemy this (set_enemy_game true) w.

(** [this.target && this.target.addScore] *)
Definition target_with (cap : Obj → bool) (w : World) (e : Enemy) : option Ref :=
  t ← enemy_target e;
  o ← world_heap w !! t;
  if cap o then Some t else None.

Definition Enemy_die (this : Ref) (w : World) : World :=
  let w := modify_enemy this (set_enemy_alive false) w in
  match get_enemy w this with
  | Some e =>
      let w := match target_with has_addScore w e with
               | Some t => Player_addScore t 10 w
               | None => w
               end in
      if enemy_game e then Game_remove this w else w
  | None => w
  end.

Definition Enemy_takeDamage (this : Ref) (amount : R) (w : World) : World :=
  let w := emit (CallTakeDamage this amount) w in
  Enemy_die this w.

(** [r.takeDamage(amount)] by the class of [r]. *)
Definition call_takeDamage (r : Ref) (amount : R) (w : World) : World :=
  match world_heap w !! r with
  | Some (OPlayer _) => Player_takeDamage r amount w
  | Some (OEnemy _) => Enemy_takeDamage r amount w
  | _ => w
  end.

(** The callback [attack] hands to [setTimeout]: it restores the colour
    read before the flash. *)
Definition Enemy_flashTimeout (timer : Ref * R) (w : World) : World :=
  modify_enemy (fst timer) (set_enemy_color (snd timer)) w.

Definition Enemy_attack (this : Ref) (w : World) : World :=
  let w := emit (CallAttack this) w in
  match get_enemy w this with
  | Some e =>
      match target_with has_takeDamage w e with
      | Some t =>
          let w := call_takeDamage t (enemy_damage e) w in
          let w := emit (CallFlash this) w in
          match get_enemy w this with
          | Some e =>
              let originalColor := enemy_color e in
              let w := set_obj this (OEnemy (set_enemy_color 16711680 e)) w in (* 0xff0000 *)
              set_timers (world_timers w ++ [(this, originalColor)]) w
          | None => w
          end
      | None => w
      end
  | None => w
  end.

(** [this.target && this.target.mesh], giving the target's position. *)
Definition Enemy_targetPosition (w : World) (e : Enemy) : option Vector3.t :=
  enemy_target e ≫= mesh_of w.

Definition Enemy_tryAttack (this : Ref) (w : World) : World :=
  match get_enemy w this with
  | Some e =>
      match Enemy_targetPosition w e with
      | Some tp =>
          let distance := Vector3.distanceTo (enemy_position e) tp in
          if decide (distance <= enemy_attackRange e
                     ∧ enemy_timeSinceAttack e >= enemy_attackCooldown e)
          then modify_enemy this (set_enemy_timeSinceAttack 0) (Enemy_attack this w)
          else w
      | None => w
      end
  | None => w
  end.

(** [chaseTarget]; [update] calls it only after it has checked the target
    and its mesh, which is the case written out here. *)
Definition Enemy_chaseTarget (this : Ref) (delta : R) (w : World) : World :=
  match get_enemy w this with
  | Some e =>
      match Enemy_targetPosition w e with
      | Some tp =>
          let direction := Vector3.set_y (Vector3.subVectors tp (enemy_position e)) 0 in
          let distance := Vector3.length direction in
          let e :=
            if decide (distance > enemy_attackRange e)
            then
              let direction := Vector3.normalize direction in
              let pos := enemy_position e in
              set_enemy_position
                (Vector3.mk (Vector3.x pos + Vector3.x direction * enemy_speed e * delta)
                            (Vector3.y pos)
                            (Vector3.z pos + Vector3.z direction * enemy_speed e * delta)) e
            else e in
          (* the target's position is read again: the target may be [this] *)
          let w := set_obj this (OEnemy e) w in
          match Enemy_targetPosition w e with
          | Some tp =>
              set_obj this
                (OEnemy (set_enemy_lookAt
                           (Vector3.mk (Vector3.x tp) (Vector3.y (enemy_position e))
                                       (Vector3.z tp)) e)) w
          | None => w
          end
      | None => w
      end
  | None => w
  end.

Definition Enemy_wander (this : Ref) (delta : R) (w : World) : World :=
  let time := world_now w * (1 / 1000) in
  modify_enemy this
    (λ e, let pos := enemy_position e in
          set_enemy_position
            (Vector3.mk (Vector3.x pos + sin time * enemy_speed e * delta * (1 / 2))
                        (Vector3.y pos)
                        (Vector3.z pos + cos time * enemy_speed e * delta * (1 / 2))) e)
    w.

(** [this.timeSinceAttack += delta] *)
Definition Enemy_tick (delta : R) (e : Enemy) : Enemy :=
  set_enemy_timeSinceAttack (enemy_timeSinceAttack e + delta) e.

Definition Enemy_update (this : Ref) (delta : R) (w : World) : World :=
  match get_enemy w this with
  | Some e =>
      if enemy_alive e
      then
        let w := modify_enemy this (Enemy_tick delta) w in
        let w := match Enemy_targetPosition w e with
                 | Some _ => Enemy_tryAttack this (Enemy_chaseTarget this delta w)
                 | None => Enemy_wander this delta w
                 end in
        modify_enemy this
          (λ e, set_enemy_position
                  (Vector3.set_y (enemy_position e)
                     (1 / 2 + sin (world_now w * (5 / 1000)) * (2 / 10))) e)
          w
      else w
  | None => w
  end.

(** ** Caller-supplied objects *)

Definition run_action (a : Action) (w : World) : World :=
  match a with
  | ARemove r => Game_remove r w
  | ATakeDamage r amount => call_takeDamage r amount w
  end.

Definition run_actions (body : list Action) (w : World) : World :=
  foldl (λ w a, run_action a w) w body.

(** ** core/Game.js: the per-frame tick *)

(** [entity.update]: the method of the object's class, if it has one. *)
Definition update_method (w : World) (entity : Ref) : option (R → World → World) :=
  match world_heap w !! entity with
  | Some (OGround _) => Some (Ground_update entity)
  | Some (OPlayer _) => Some (Player_update entity)
  | Some (OEnemy _) => Some (Enemy_update entity)
  | Some (OPlain o) => (λ body (_ : R), run_actions body) <$> plain_update o
  | None => None
  end.

(** [entity.init] *)
Definition init_method (w : World) (entity : Ref) : option (World → World) :=
  match world_heap w !! entity with
  | Some (OGround _) => Some (Ground_init entity)
  | Some (OPlayer _) => Some (Player_init entity)
  | Some (OEnemy _) => Some (Enemy_init entity)
  | _ => None
  end.

Definition Game_add (entity : Ref) (w : World) : World :=
  let g := world_game w in
  let g := set_entities (game_entities g ++ [entity]) g in
  let g := match mesh_of w entity with
           | Some _ => set_scene (scene_add entity (game_scene g)) g
           | None => g
           end in
  let w := set_game g w in
  match init_method w entity with
  | Some init => init w
  | None => w
  end.

(** [Array.prototype.forEach]: the length is read once, before the first
    call; index [k] is visited if the array still has an element there, and
    the element is read when it is visited.  [arr] reads the array from the
    current world, [n] counts the indices still to visit. *)
Fixpoint forEach_from {A} (arr : World → list A) (f : A → World → World)
    (k n : nat) (w : World) : World :=
  match n with
  | O => w
  | S n =>
      let w := match arr w !! k with
               | Some a => f a w
               | None => w
               end in
      forEach_from arr f (S k) n w
  end.

Definition forEach {A} (arr : World → list A) (f : A → World → World) (w : World) : World :=
  forEach_from arr f 0 (length (arr w)) w.

(** The body of the arrow function passed to [this.entities.forEach]. *)
Definition update_entity (delta : R) (entity : Ref) (w : World) : World :=
  match update_method w entity with
  | Some update => update delta (emit (CallUpdate entity) w)
  | None => w
  end.

(** One call of [animate]; [delta] is the value of [clock.getDelta()].
    Scheduling the next frame and rendering leave the world as it is. *)
Definition Game_animate (delta : R) (w : World) : World :=
  if game_isRunning (world_game w)
  then
    let w := forEach (λ w, game_entities (world_game w)) (update_entity delta) w in
    forEach (λ w, game_updateCallbacks (world_game w)) run_actions w
  else w.

Definition Game_start (delta : R) (w : World) : World :=
  Game_animate delta (set_game (set_isRunning true (world_game w)) w).

Definition Game_stop (w : World) : World :=
  set_game (set_isRunning false (world_game w)) w.

(** The driver right after [new Game()], over a store of objects. *)
Definition Game_new : Game :=
  mkGame [] [] [] false (Vector3.mk 0 2 5) (0, 0) None.

Definition World_new (heap : gmap Ref Obj) (now : R) : World :=
  mkWorld heap Game_new None None [] now [].

(** ** Reading the trace *)

Definition is_update_of (r : Ref) (ev : Event) : bool :=
  match ev with
  | CallUpdate r' => bool_decide (r' = r)
  | _ => false
  end.

Definition is_remove_of (r : Ref) (ev : Event) : bool :=
  match ev with
  | CallRemove r' => bool_decide (r' = r)
  | _ => false
  end.

Definition is_attack_of (r : Ref) (ev : Event) : bool :=
  match ev with
  | CallAttack r' => bool_decide (r' = r)
  | _ => false
  end.

Definition is_takeDamage_of (r : Ref) (ev : Event) : bool :=
  match ev with
  | CallTakeDamage r' _ => bool_decide (r' = r)
  | _ => false
  end.

Definition is_flash_of (r : Ref) (ev : Event) : bool :=
  match ev with
  | CallFlash r' => bool_decide (r' = r)
  | _ => false
  end.

(** How many events of a kind a trace holds. *)
Definition count (P : Event → bool) (tr : list Event) : nat :=
  length (filter (λ ev, P ev = true) tr).

(** ** Sequences of calls *)

(** Calls on the world collection. *)
Inductive GameOp :=
| OpAdd (entity : Ref)
| OpRemove (entity : Ref).

Definition run_op (op : GameOp) (w : World) : World :=
  match op with
  | OpAdd entity => Game_add entity w
  | OpRemove entity => Game_remove entity w
  end.

Definition run_ops (ops : list GameOp) (w : World) : World :=
  foldl (λ w op, run_op op w) w ops.

(** No [add] is given an entity the collection already holds. *)
Fixpoint fresh_adds (ops : list GameOp) (w : World) : Prop :=
  match ops with
  | [] => True
  | op :: ops =>
      match op with
      | OpAdd entity => entity ∉ game_entities (world_game w)
      | OpRemove _ => True
      end ∧ fresh_adds ops (run_op op w)
  end.

(** Calls on a player. *)
Inductive PlayerCall :=
| DoTakeDamage (amount : R)
| DoAddScore (points : R).

Definition Player_call (this : Ref) (c : PlayerCall) (w : World) : World :=
  match c with
  | DoTakeDamage amount => Player_takeDamage this amount w
  | DoAddScore points => Player_addScore this points w
  end.

Definition Player_calls (this : Ref) (cs : list PlayerCall) (w : World) : World :=
  foldl (λ w c, Player_call this c w) w cs.

Definition damage_nonneg (c : PlayerCall) : Prop :=
  match c with
  | DoTakeDamage amount => 0 <= amount
  | DoAddScore _ => True
  end.

(** [takeDamage] called on an enemy once per amount of the list. *)
Definition Enemy_hits (this : Ref) (amounts : list R) (w : World) : World :=
  foldl (λ w amount, Enemy_takeDamage this amount w) w amounts.

(** The world in which [Enemy.update] calls [tryAttack]: the timer has been
    advanced and [chaseTarget] has run. *)
Definition Enemy_beforeTryAttack (this : Ref) (delta : R) (w : World) : World :=
  Enemy_chaseTarget this delta (modify_enemy this (Enemy_tick delta) w).

(** The test of [tryAttack]. *)
Definition attack_ready (e : Enemy) (targetPosition : Vector3.t) : Prop :=
  Vector3.distanceTo (enemy_position e) targetPosition <= enemy_attackRange e
  ∧ enemy_timeSinceAttack e >= enemy_attackCooldown e.

(** ** Concrete worlds *)

(** A store holding one object, at reference 0, and a driver that has not
    been given anything yet. *)
Definition world_of (o : Obj) : World := World_new {[ 0%nat := o ]} 0.

(** [new Player()] alone in the world. *)
Definition fresh_player_world : World := world_of (OPlayer (Player_new no_PlayerOptions)).

(** [new Ground()] alone in the world. *)
Definition fresh_ground_world : World :=
  world_of (OGround (Ground_new (mkGroundOptions None None))).

(** An object whose only method is [update], with the given body. *)
Definition probe (body : list Action) : Obj := OPlain (mkPlain None (Some body)).

(** Three such objects, at references 0, 1 and 2, added in this order to a
    driver that is then set running. *)
Definition three_probes (body0 body1 body2 : list Action) : World :=
  let heap := {[ 0%nat := probe body0; 1%nat := probe body1; 2%nat := probe body2 ]} in
  let w := run_ops [OpAdd 0%nat; OpAdd 1%nat; OpAdd 2%nat] (World_new heap 0) in
  set_game (set_isRunning true (world_game w)) w.

(** How often each of the entities 0, 1 and 2 was updated. *)
Definition updates_012 (w : World) : nat * nat * nat :=
  (count (is_update_of 0%nat) (world_trace w),
   count (is_update_of 1%nat) (world_trace w),
   count (is_update_of 2%nat) (world_trace w)).

(** [new Enemy()], with both random draws 0, added to the driver. *)
Definition enemy_in_game : World :=
  Game_add 0%nat (world_of (OEnemy (Enemy_new no_EnemyOptions 0 0))).

(** An enemy at the origin whose target is reference 1 and whose cooldown
    (1 by default) has elapsed. *)
Definition ready_enemy : Enemy :=
  set_enemy_timeSinceAttack 1
    (Enemy_new (mkEnemyOptions None (Some 1%nat) None None None (Some Vector3.zero)) 0 0).

(** That enemy at reference 0 and a ground, which has a mesh and no
    [takeDamage], at reference 1. *)
Definition enemy_facing_ground : World :=
  World_new {[ 0%nat := OEnemy ready_enemy;
               1%nat := OGround (Ground_new (mkGroundOptions None None)) ]} 0.

(** ** Further readings of the state *)

(** The points a call adds to the score. *)
Definition points_of (c : PlayerCall) : R :=
  match c with
  | DoTakeDamage _ => 0
  | DoAddScore points => points
  end.

Definition total_points (cs : list PlayerCall) : R :=
  foldr (λ c acc, points_of c + acc) 0 cs.

(** The horizontal part of a vector. *)
Definition planar (v : Vector3.t) : Vector3.t := Vector3.set_y v 0.

(** A player standing on the ground with the space key held. *)
Definition grounded_player : Player :=
  set_player_onGround true
    (set_player_position (Vector3.mk 0 1 0) (Player_new no_PlayerOptions)).

Definition space_held : Input.t := Input.keydown "Space" Input.new.

(** [new Player()] added to a driver that has no input source yet, and the
    player record [init] leaves. *)
Definition player_in_game : World := Game_add 0%nat fresh_player_world.

Definition added_player : Player :=
  set_player_position (Vector3.mk 0 1 0)
    (set_player_refs true false (Player_new no_PlayerOptions)).

(** What no method writes: the class of an object, the target of an enemy,
    and a caller-supplied object as a whole. *)
Inductive Shape :=
| SGround
| SPlayer
| SEnemy (target : option Ref)
| SPlain (o : Plain).

Definition shape_of (o : Obj) : Shape :=
  match o with
  | OGround _ => SGround
  | OPlayer _ => SPlayer
  | OEnemy e => SEnemy (enemy_target e)
  | OPlain o => SPlain o
  end.

Definition shape_at (w : World) (r : Ref) : option Shape :=
  shape_of <$> world_heap w !! r.

Definition same_shapes (w w' : World) : Prop :=
  ∀ r, shape_at w' r = shape_at w r.

(** The events a method can add while it runs: every event but the call
    of [update] by the driver. *)
Definition inner_event (ev : Event) : Prop :=
  match ev with
  | CallUpdate _ => False
  | _ => True
  end.

(** [w'] comes from [w] by method calls: the shapes are those of [w] and
    the trace is that of [w] followed by inner events. *)
Definition evolves (w w' : World) : Prop :=
  same_shapes w w'
  ∧ ∃ evs, world_trace w' = world_trace w ++ evs ∧ Forall inner_event evs.

(** Whether an object of a shape has an [update] method and a mesh. *)
Definition shape_has_update (s : Shape) : bool :=
  match s with
  | SPlain o => bool_decide (is_Some (plain_update o))
  | _ => true
  end.

Definition shape_has_mesh (s : Shape) : bool :=
  match s with
  | SPlain o => bool_decide (is_Some (plain_mesh o))
  | _ => true
  end.

(** A world in which no update removes an entity: no enemy targets an
    enemy and the [update] of a caller-supplied object, if it has one, has
    an empty body.  The world built by [main.js] is of this kind. *)
Definition calm (w : World) : Prop :=
  ∀ r, match shape_at w r with
       | Some (SEnemy (Some t)) => ∀ target, shape_at w t ≠ Some (SEnemy target)
       | Some (SPlain o) => ∀ body, plain_update o = Some body → body = []
       | _ => True
       end.

(** How often a reference occurs in a list. *)
Definition occurrences (r : Ref) (l : list Ref) : nat :=
  length (filter (λ x, x = r) l).

(** The collection and the scene are in step: no entity and no mesh occurs
    twice, and the scene holds the meshes of the entities that have one. *)
Definition in_step (w : World) : Prop :=
  NoDup (game_entities (world_game w))
  ∧ NoDup (game_scene (world_game w))
  ∧ ∀ r, r ∈ game_scene (world_game w)
         ↔ r ∈ game_entities (world_game w) ∧ is_Some (mesh_of w r).

(** Whether the object at a reference has an [update] method. *)
Definition updatable (w : World) (r : Ref) : bool :=
  match shape_at w r with
  | Some s => shape_has_update s
  | None => false
  end.

(** The driver fields no update of a calm world writes: all but the
    camera and the input source. *)
Definition same_driver (w w' : World) : Prop :=
  game_entities (world_game w') = game_entities (world_game w)
  ∧ game_scene (world_game w') = game_scene (world_game w)
  ∧ game_updateCallbacks (world_game w') = game_updateCallbacks (world_game w)
  ∧ game_isRunning (world_game w') = game_isRunning (world_game w).

(** ** main.js

    The composition root: the driver, its input source, the ground, the
    player, five enemies that target the player, and one callback with an
    empty body.  [rnd] supplies the [Math.random()] draws of the enemies
    (speed, angle, distance).  The decorative cubes, the sky and the fog go
    to the renderer only. *)
Definition main_enemy (k : nat) (rnd : nat → R) : Enemy :=
  Enemy_new (mkEnemyOptions (Some (2 + rnd (3 * k)%nat * 2)) (Some 1%nat) (Some 5)
                            None None None)
            (rnd (3 * k + 1)%nat) (rnd (3 * k + 2)%nat).

Definition main_heap (rnd : nat → R) : gmap Ref Obj :=
  {[ 0%nat := OGround (Ground_new (mkGroundOptions (Some 100) None));
     1%nat := OPlayer (Player_new (mkPlayerOptions (Some 8) (Some 12) (Some (2 / 1000)) None));
     2%nat := OEnemy (main_enemy 0 rnd);
     3%nat := OEnemy (main_enemy 1 rnd);
     4%nat := OEnemy (main_enemy 2 rnd);
     5%nat := OEnemy (main_enemy 3 rnd);
     6%nat := OEnemy (main_enemy 4 rnd) ]}.

(** The world when [main.js] reaches [game.start()]. *)
Definition main_setup (rnd : nat → R) (now : R) : World :=
  let w := World_new (main_heap rnd) now in
  let w := set_game (set_input (Some Input.new) (world_game w)) w in
  let w := run_ops [OpAdd 0%nat; OpAdd 1%nat; OpAdd 2%nat; OpAdd 3%nat;
                    OpAdd 4%nat; OpAdd 5%nat; OpAdd 6%nat] w in
  Game_onUpdate [] w.

(** A later frame: the clock has moved to [now] and [delta] has elapsed. *)
Definition set_now (now : R) (w : World) : World :=
  mkWorld (world_heap w) (world_game w) (world_ui_health w) (world_ui_score w)
          (world_timers w) now (world_trace w).

Definition Game_frame (w : World) (frame : R * R) : World :=
  Game_animate (snd frame) (set_now (fst frame) w).

Definition Game_frames (frames : list (R * R)) (w : World) : World :=
  foldl Game_frame w frames.

(** [main.js] with every random draw 1/2, inside [game.start()] before the
    first [animate]. *)
Definition half_draws : nat → R := λ _, 1 / 2.

Definition main_started : World :=
  set_game (set_isRunning true (world_game (main_setup half_draws 0)))
           (main_setup half_draws 0).

(** An enemy at the origin chasing a player who stands five units away
    along the x axis. *)
Definition distant_player : Player :=
  set_player_position (Vector3.mk 5 1 0) (Player_new no_PlayerOptions).

Definition chasing_world : World :=
  World_new {[ 0%nat := OEnemy ready_enemy; 1%nat := OPlayer distant_player ]} 0.

(** The same enemy with the player next to it, at the origin. *)
Definition near_player : Player :=
  set_player_position Vector3.zero (Player_new no_PlayerOptions).

Definition attacking_world : World :=
  World_new {[ 0%nat := OEnemy ready_enemy; 1%nat := OPlayer near_player ]} 0.

(** A player at reference 1 and an enemy at reference 0 that targets it,
    both added to the driver. *)
Definition hunted_world : World :=
  run_ops [OpAdd 0%nat; OpAdd 1%nat]
    (World_new {[ 0%nat := OEnemy ready_enemy; 1%nat := OPlayer near_player ]} 0).

(** * Properties *)

(** ** Reading the store after a write *)

Lemma get_player_set_obj (w : World) (r : Ref) (p : Player) :
  get_player (set_obj r (OPlayer p) w) r = Some p.
Proof. unfold get_player, set_obj; simpl. by rewrite lookup_insert_eq. Qed.

Lemma get_enemy_set_obj (w : World) (r : Ref) (e : Enemy) :
  get_enemy (set_obj r (OEnemy e) w) r = Some e.
Proof. unfold get_enemy, set_obj; simpl. by rewrite lookup_insert_eq. Qed.

Lemma heap_set_obj_ne (w : World) (r r' : Ref) (o : Obj) :
  r ≠ r' → world_heap (set_obj r o w) !! r' = world_heap w !! r'.
Proof. intros Hne. unfold set_obj; simpl. by rewrite lookup_insert_ne. Qed.

Lemma get_player_heap (w : World) (r : Ref) (p : Player) :
  get_player w r = Some p ↔ world_heap w !! r = Some (OPlayer p).
Proof.
  unfold get_player. destruct (world_heap w !! r) as [[]|]; split; congruence.
Qed.

Lemma get_enemy_heap (w : World) (r : Ref) (e : Enemy) :
  get_enemy w r = Some e ↔ world_heap w !! r = Some (OEnemy e).
Proof.
  unfold get_enemy. destruct (world_heap w !! r) as [[]|]; split; congruence.
Qed.

Lemma get_enemy_modify (w : World) (r : Ref) (f : Enemy → Enemy) (e : Enemy) :
  get_enemy w r = Some e → get_enemy (modify_enemy r f w) r = Some (f e).
Proof. intros He. unfold modify_enemy. rewrite He. apply get_enemy_set_obj. Qed.

(** ** Constructor defaults *)

Lemma num_or_zero (dflt : R) : num_or (Some 0) dflt = dflt.
Proof. unfold num_or. by rewrite decide_True. Qed.

Lemma num_or_nonzero (x dflt : R) : x ≠ 0 → num_or (Some x) dflt = x.
Proof. intros Hx. unfold num_or. by rewrite decide_False. Qed.

(** C9. The constructors default an option on the falsy number 0 as they
    do on an omitted option: health 0 gives a player of health 100, speed 0
    an enemy of speed 2, damage 0 an enemy of damage 10, size 0 a ground of
    size 100, whatever the other options are. *)
Theorem constructor_defaults_on_zero :
  (∀ speed jumpForce sensitivity,
     player_health (Player_new (mkPlayerOptions speed jumpForce sensitivity (Some 0))) = 100
     ∧ player_health (Player_new (mkPlayerOptions speed jumpForce sensitivity None)) = 100)
  ∧ (∀ target damage range cooldown position rnd1 rnd2,
       enemy_speed (Enemy_new (mkEnemyOptions (Some 0) target damage range cooldown position)
                              rnd1 rnd2) = 2)
  ∧ (∀ speed target range cooldown position rnd1 rnd2,
       enemy_damage (Enemy_new (mkEnemyOptions speed target (Some 0) range cooldown position)
                               rnd1 rnd2) = 10)
  ∧ (∀ color, ground_size (Ground_new (mkGroundOptions (Some 0) color)) = 100).
Proof.
  repeat split; intros; first [apply num_or_zero | reflexivity].
Qed.

(** ** Player health *)

Lemma Player_damaged_health (amount : R) (p : Player) :
  player_health (Player_damaged amount p) = Rmax 0 (player_health p - amount).
Proof.
  unfold Player_damaged, Rmax; simpl.
  case_decide; destruct (Rle_dec 0 (player_health p - amount)); simpl; lra.
Qed.

Lemma Player_scored_health (points : R) (p : Player) :
  player_health (Player_scored points p) = player_health p.
Proof. reflexivity. Qed.

Lemma Player_takeDamage_get (this : Ref) (amount : R) (w : World) (p : Player) :
  get_player w this = Some p →
  get_player (Player_takeDamage this amount w) this = Some (Player_damaged amount p).
Proof.
  intros Hp. unfold Player_takeDamage.
  change (get_player (emit (CallTakeDamage this amount) w) this) with (get_player w this).
  rewrite Hp. unfold Player_updateUI. rewrite get_player_set_obj.
  apply get_player_set_obj.
Qed.

Lemma Player_addScore_get (this : Ref) (points : R) (w : World) (p : Player) :
  get_player w this = Some p →
  get_player (Player_addScore this points w) this = Some (Player_scored points p).
Proof.
  intros Hp. unfold Player_addScore.
  change (get_player (emit (CallAddScore this points) w) this) with (get_player w this).
  rewrite Hp. unfold Player_updateUI. rewrite get_player_set_obj.
  apply get_player_set_obj.
Qed.

Lemma Player_takeDamage_ui (this : Ref) (amount : R) (w : World) (p : Player) :
  get_player w this = Some p →
  world_ui_health (Player_takeDamage this amount w)
  = Some (player_health (Player_damaged amount p)).
Proof.
  intros Hp. unfold Player_takeDamage.
  change (get_player (emit (CallTakeDamage this amount) w) this) with (get_player w this).
  rewrite Hp. unfold Player_updateUI. by rewrite get_player_set_obj.
Qed.

(** C4. After [takeDamage(amount)] the player's health is
    [max(0, previous health - amount)]; it is not negative, and the value
    written to the health display is that clamped value. *)
Theorem Player_takeDamage_clamps (this : Ref) (amount : R) (w : World) (p : Player) :
  get_player w this = Some p →
  ∃ p', get_player (Player_takeDamage this amount w) this = Some p'
        ∧ player_health p' = Rmax 0 (player_health p - amount)
        ∧ 0 <= player_health p'
        ∧ world_ui_health (Player_takeDamage this amount w) = Some (player_health p').
Proof.
  intros Hp. exists (Player_damaged amount p).
  split; [by apply Player_takeDamage_get|].
  split; [apply Player_damaged_health|].
  split; [rewrite Player_damaged_health; apply Rmax_l|].
  by apply Player_takeDamage_ui.
Qed.

(** The scenario of C4: a default player hit for 150 reads health 0. *)
Lemma Player_takeDamage_clamps_witness :
  ∃ p', get_player (Player_takeDamage 0%nat 150 fresh_player_world) 0%nat = Some p'
        ∧ player_health p' = 0
        ∧ world_ui_health (Player_takeDamage 0%nat 150 fresh_player_world) = Some 0.
Proof.
  destruct (Player_takeDamage_clamps 0%nat 150 fresh_player_world
              (Player_new no_PlayerOptions) eq_refl)
    as (p' & Hget & Hhealth & _ & Hui).
  assert (Hzero : player_health p' = 0).
  { rewrite Hhealth. simpl. unfold Rmax.
    destruct (Rle_dec 0 (100 - 150)); lra. }
  exists p'. rewrite Hui, Hzero. auto.
Defined.

Lemma Player_call_get (this : Ref) (c : PlayerCall) (w : World) (p : Player) :
  get_player w this = Some p →
  ∃ p', get_player (Player_call this c w) this = Some p'
        ∧ player_health p'
          = match c with
            | DoTakeDamage amount => Rmax 0 (player_health p - amount)
            | DoAddScore _ => player_health p
            end.
Proof.
  intros Hp. destruct c as [amount|points]; simpl.
  - exists (Player_damaged amount p).
    split; [by apply Player_takeDamage_get | apply Player_damaged_health].
  - exists (Player_scored points p).
    split; [by apply Player_addScore_get | reflexivity].
Qed.

(** C3, as the code has it.  From a player whose health lies in [0, 100]
    (a player built with the health option omitted has health 100), any
    sequence of [takeDamage] calls with non-negative amounts and of
    [addScore] calls leaves the health in [0, 100]. *)
Theorem Player_health_range (this : Ref) (cs : list PlayerCall) (w : World) (p : Player) :
  get_player w this = Some p →
  0 <= player_health p <= 100 →
  Forall damage_nonneg cs →
  ∃ p', get_player (Player_calls this cs w) this = Some p'
        ∧ 0 <= player_health p' <= 100.
Proof.
  intros Hp Hrange Hcs. revert w p Hp Hrange.
  induction Hcs as [|c cs Hc _ IH]; intros w p Hp Hrange.
  - exists p. auto.
  - destruct (Player_call_get this c w p Hp) as (p1 & Hp1 & Hh1).
    simpl. apply (IH _ p1 Hp1).
    rewrite Hh1. destruct c as [amount|points]; simpl in *; [|lra].
    unfold Rmax. destruct (Rle_dec 0 (player_health p - amount)); lra.
Qed.

Lemma Player_health_range_witness :
  ∃ p', get_player
          (Player_calls 0%nat [DoTakeDamage 30; DoAddScore 10; DoTakeDamage 150]
                        fresh_player_world) 0%nat = Some p'
        ∧ 0 <= player_health p' <= 100.
Proof.
  apply (Player_health_range 0%nat _ fresh_player_world (Player_new no_PlayerOptions)).
  - reflexivity.
  - simpl. lra.
  - repeat constructor; simpl; lra.
Defined.

(** C3 as stated fails: a negative amount raises the health of a default
    player above 100. *)
Lemma Player_health_above_100 :
  ∃ p', get_player (Player_calls 0%nat [DoTakeDamage (-50)] fresh_player_world) 0%nat
        = Some p'
        ∧ ¬ (0 <= player_health p' <= 100).
Proof.
  destruct (Player_call_get 0%nat (DoTakeDamage (-50)) fresh_player_world
              (Player_new no_PlayerOptions) eq_refl) as (p' & Hget & Hhealth).
  exists p'. split; [exact Hget|].
  rewrite Hhealth. simpl. unfold Rmax.
  destruct (Rle_dec 0 (100 - -50)); lra.
Qed.

(** ** Player physics *)

Lemma Player_applyPhysics_floor (delta : R) (p : Player) :
  1 <= Vector3.y (player_position (Player_applyPhysics delta p)).
Proof.
  unfold Player_applyPhysics. case_decide; simpl in *; lra.
Qed.

(** C7. For an elapsed time [delta >= 0] and any player state, after
    [applyPhysics] the vertical position is at least the ground height 1;
    when the integrated position is at or below 1 it is set to 1, the
    vertical velocity is zeroed and [onGround] is set. *)
Theorem Player_applyPhysics_ground (delta : R) (p : Player) :
  0 <= delta →
  let vy := Vector3.y (player_velocity p) + player_gravity p * delta in
  let py := Vector3.y (player_position p) + vy * delta in
  let p' := Player_applyPhysics delta p in
  1 <= Vector3.y (player_position p')
  ∧ (py <= 1 →
     Vector3.y (player_position p') = 1
     ∧ Vector3.y (player_velocity p') = 0
     ∧ player_onGround p' = true)
  ∧ (1 < py →
     Vector3.y (player_position p') = py
     ∧ Vector3.y (player_velocity p') = vy
     ∧ player_onGround p' = player_onGround p).
Proof.
  intros _ vy py p'. split; [apply Player_applyPhysics_floor|].
  subst vy py p'. unfold Player_applyPhysics.
  split; intros Hpy; case_decide; simpl in *; auto; lra.
Qed.

Lemma Player_applyPhysics_ground_witness :
  1 <= Vector3.y (player_position (Player_applyPhysics (1 / 10) (Player_new no_PlayerOptions))).
Proof.
  apply (Player_applyPhysics_ground (1 / 10) (Player_new no_PlayerOptions)). lra.
Defined.

(** ** Player movement direction *)



(** ** The world collection *)

Lemma Player_updateCamera_entities (this : Ref) (w : World) :
  game_entities (world_game (Player_updateCamera this w)) = game_entities (world_game w).
Proof. unfold Player_updateCamera. repeat case_match; done. Qed.

Lemma Player_updateUI_game (this : Ref) (w : World) :
  world_game (Player_updateUI this w) = world_game w.
Proof. unfold Player_updateUI. by destruct (get_player w this). Qed.

Lemma init_method_entities (entity : Ref) (w w' : World) (init : World → World) :
  init_method w entity = Some init →
  game_entities (world_game (init w')) = game_entities (world_game w').
Proof.
  unfold init_method. intros Hinit.
  repeat case_match; simplify_eq.
  - unfold Ground_init. repeat case_match; done.
  - unfold Player_init. destruct (get_player w' entity); [|done].
    by rewrite Player_updateUI_game, Player_updateCamera_entities.
  - unfold Enemy_init, modify_enemy. repeat case_match; done.
Qed.

(** [add] appends, whatever the collection holds. *)
Lemma Game_add_entities (entity : Ref) (w : World) :
  game_entities (world_game (Game_add entity w))
  = game_entities (world_game w) ++ [entity].
Proof.
  unfold Game_add.
  destruct (init_method _ entity) as [init|] eqn:Hinit.
  - rewrite (init_method_entities _ _ _ _ Hinit). by destruct (mesh_of w entity).
  - by destruct (mesh_of w entity).
Qed.

(** [remove] deletes the first occurrence, if there is one. *)
Lemma Game_remove_entities (entity : Ref) (w : World) :
  game_entities (world_game (Game_remove entity w))
  = match indexOf entity (game_entities (world_game w)) with
    | Some index => delete index (game_entities (world_game w))
    | None => game_entities (world_game w)
    end.
Proof.
  unfold Game_remove; simpl.
  destruct (indexOf entity _); [|done].
  by destruct (mesh_of _ entity).
Qed.

Lemma run_op_NoDup (op : GameOp) (w : World) :
  NoDup (game_entities (world_game w)) →
  match op with
  | OpAdd entity => entity ∉ game_entities (world_game w)
  | OpRemove _ => True
  end →
  NoDup (game_entities (world_game (run_op op w))).
Proof.
  intros Hnd Hfresh. destruct op as [entity|entity]; simpl.
  - rewrite Game_add_entities. apply NoDup_app.
    split_and!; [done| |apply NoDup_singleton].
    intros x Hx ->%list_elem_of_singleton. done.
  - rewrite Game_remove_entities. destruct (indexOf entity _); [|done].
    eapply sublist_NoDup; [done | apply sublist_delete].
Qed.

(** C2, as the code has it.  [add] appends without looking for the entity
    in the collection; along a sequence of [add] and [remove] calls in which
    no [add] is given an entity the collection holds at that moment, each
    entity appears in the collection at most once. *)
Theorem entities_NoDup (ops : list GameOp) (w : World) :
  NoDup (game_entities (world_game w)) →
  fresh_adds ops w →
  NoDup (game_entities (world_game (run_ops ops w))).
Proof.
  revert w. induction ops as [|op ops IH]; intros w Hnd Hfresh; [done|].
  destruct Hfresh as [Hop Hops]. simpl.
  apply IH; [by apply run_op_NoDup | done].
Qed.

Lemma entities_NoDup_witness :
  NoDup (game_entities (world_game
           (run_ops [OpAdd 0%nat; OpRemove 0%nat; OpAdd 0%nat] fresh_ground_world))).
Proof.
  apply entities_NoDup.
  - apply NoDup_nil_2.
  - simpl. split_and!; try done.
    + apply not_elem_of_nil.
    + rewrite Game_remove_entities, Game_add_entities. apply not_elem_of_nil.
Defined.

(** C2 as stated fails: [add] called twice with the same entity leaves two
    occurrences of it in the collection. *)
Lemma add_twice_duplicates :
  game_entities (world_game (run_ops [OpAdd 0%nat; OpAdd 0%nat] fresh_ground_world))
  = [0%nat; 0%nat]
  ∧ ¬ NoDup (game_entities (world_game
               (run_ops [OpAdd 0%nat; OpAdd 0%nat] fresh_ground_world))).
Proof.
  assert (Hents : game_entities (world_game
                    (run_ops [OpAdd 0%nat; OpAdd 0%nat] fresh_ground_world))
                  = [0%nat; 0%nat])
    by (simpl; by rewrite !Game_add_entities).
  split; [exact Hents|].
  rewrite Hents. intros [Hnotin _]%NoDup_cons. apply Hnotin, list_elem_of_here.
Qed.

(** ** Removal during the update pass *)

Lemma three_probes_entities (body0 body1 body2 : list Action) :
  game_entities (world_game (three_probes body0 body1 body2)) = [0; 1; 2]%nat.
Proof. reflexivity. Qed.

(** C1, at the input where it fails.  The collection holds the entities 0,
    1 and 2, and the update of entity 1 asks the driver to remove entity 1.
    After one tick the collection holds 0 and 2, entity 0 was updated once
    and entity 2 was not updated: [forEach] looks for index 2 in an array
    that has only two elements left. *)
Theorem animate_skips_after_removal (delta : R) :
  let w := Game_animate delta (three_probes [] [ARemove 1%nat] []) in
  game_entities (world_game w) = [0; 2]%nat
  ∧ world_trace w = [CallUpdate 0%nat; CallUpdate 1%nat; CallRemove 1%nat]
  ∧ updates_012 w = (1, 1, 0)%nat.
Proof. vm_compute. auto. Qed.

(** The same removal requested by the update of entity 0: entity 1 is gone
    before its turn, entities 0 and 2 are updated once each. *)
Lemma animate_removal_by_first (delta : R) :
  let w := Game_animate delta (three_probes [ARemove 1%nat] [] []) in
  game_entities (world_game w) = [0; 2]%nat
  ∧ updates_012 w = (1, 0, 1)%nat.
Proof. vm_compute. auto. Qed.

(** The same removal requested by the update of entity 2: all three have
    been updated once when entity 1 is removed. *)
Lemma animate_removal_by_last (delta : R) :
  let w := Game_animate delta (three_probes [] [] [ARemove 1%nat]) in
  game_entities (world_game w) = [0; 2]%nat
  ∧ updates_012 w = (1, 1, 1)%nat.
Proof. vm_compute. auto. Qed.

(** ** Traces *)

Lemma count_app (P : Event → bool) (l1 l2 : list Event) :
  count P (l1 ++ l2) = (count P l1 + count P l2)%nat.
Proof. unfold count. by rewrite filter_app, length_app. Qed.

Lemma count_nil (P : Event → bool) : count P [] = 0%nat.
Proof. reflexivity. Qed.

Lemma count_singleton (P : Event → bool) (ev : Event) :
  count P [ev] = if P ev then 1%nat else 0%nat.
Proof.
  unfold count. destruct (P ev) eqn:HP.
  - by rewrite filter_cons_True.
  - rewrite filter_cons_False; [done | congruence].
Qed.

Lemma modify_enemy_trace (r : Ref) (f : Enemy → Enemy) (w : World) :
  world_trace (modify_enemy r f w) = world_trace w.
Proof. unfold modify_enemy. by case_match. Qed.

Lemma Game_remove_trace (r : Ref) (w : World) :
  world_trace (Game_remove r w) = world_trace w ++ [CallRemove r].
Proof. unfold Game_remove. by repeat case_match. Qed.

Lemma Game_remove_heap (r : Ref) (w : World) :
  world_heap (Game_remove r w) = world_heap w.
Proof. unfold Game_remove. by repeat case_match. Qed.

Lemma Game_remove_get_enemy (r this : Ref) (w : World) :
  get_enemy (Game_remove r w) this = get_enemy w this.
Proof. unfold get_enemy. by rewrite Game_remove_heap. Qed.

Lemma Player_addScore_trace (this : Ref) (points : R) (w : World) :
  world_trace (Player_addScore this points w) = world_trace w ++ [CallAddScore this points].
Proof. unfold Player_addScore, Player_updateUI. by repeat case_match. Qed.

Lemma Player_takeDamage_trace (this : Ref) (amount : R) (w : World) :
  world_trace (Player_takeDamage this amount w)
  = world_trace w ++ [CallTakeDamage this amount].
Proof. unfold Player_takeDamage, Player_updateUI. by repeat case_match. Qed.

(** Writing a player leaves every enemy as it is. *)
Lemma get_enemy_set_player (w : World) (t r : Ref) (p p' : Player) :
  get_player w t = Some p →
  get_enemy (set_obj t (OPlayer p') w) r = get_enemy w r.
Proof.
  intros Hp%get_player_heap. unfold get_enemy.
  destruct (decide (t = r)) as [->|Hne].
  - unfold set_obj; simpl. by rewrite lookup_insert_eq, Hp.
  - by rewrite heap_set_obj_ne.
Qed.

Lemma Player_addScore_get_enemy (t r : Ref) (points : R) (w : World) :
  get_enemy (Player_addScore t points w) r = get_enemy w r.
Proof.
  unfold Player_addScore.
  change (get_player (emit (CallAddScore t points) w) t) with (get_player w t).
  destruct (get_player w t) as [p|] eqn:Hp; [|done].
  unfold Player_updateUI. rewrite get_player_set_obj.
  change (get_enemy (set_ui ?h ?s ?w') r) with (get_enemy w' r).
  by rewrite (get_enemy_set_player _ _ _ p).
Qed.

Lemma Player_takeDamage_get_enemy (t r : Ref) (amount : R) (w : World) :
  get_enemy (Player_takeDamage t amount w) r = get_enemy w r.
Proof.
  unfold Player_takeDamage.
  change (get_player (emit (CallTakeDamage t amount) w) t) with (get_player w t).
  destruct (get_player w t) as [p|] eqn:Hp; [|done].
  unfold Player_updateUI. rewrite get_player_set_obj.
  change (get_enemy (set_ui ?h ?s ?w') r) with (get_enemy w' r).
  by rewrite (get_enemy_set_player _ _ _ p).
Qed.

(** A capability test that does not look at an enemy's fields gives the
    same answer after a write to an enemy. *)
Lemma target_with_modify (cap : Obj → bool) (this : Ref) (f : Enemy → Enemy)
    (w : World) (e e0 : Enemy) :
  (∀ e1 e2, cap (OEnemy e1) = cap (OEnemy e2)) →
  get_enemy w this = Some e0 →
  target_with cap (modify_enemy this f w) e = target_with cap w e.
Proof.
  intros Hcap He0. unfold target_with, modify_enemy. rewrite He0.
  destruct (enemy_target e) as [t|]; [simpl|done].
  destruct (decide (this = t)) as [->|Hne].
  - apply get_enemy_heap in He0. unfold set_obj; simpl.
    rewrite lookup_insert_eq, He0; simpl. by rewrite (Hcap (f e0) e0).
  - unfold set_obj; simpl. by rewrite lookup_insert_ne.
Qed.

(** What [die] does to the enemy and to the trace. *)
Lemma Enemy_die_spec (this : Ref) (w : World) (e : Enemy) :
  get_enemy w this = Some e →
  get_enemy (Enemy_die this w) this = Some (set_enemy_alive false e)
  ∧ world_trace (Enemy_die this w)
    = world_trace w
      ++ match target_with has_addScore w e with
         | Some t => [CallAddScore t 10]
         | None => []
         end
      ++ (if enemy_game e then [CallRemove this] else []).
Proof.
  intros He. unfold Enemy_die.
  rewrite (get_enemy_modify _ _ _ _ He).
  change (target_with has_addScore ?w' (set_enemy_alive false e))
    with (target_with has_addScore w' e).
  rewrite (target_with_modify _ _ _ _ _ e) by done.
  change (enemy_game (set_enemy_alive false e)) with (enemy_game e).
  pose proof (get_enemy_modify _ _ (set_enemy_alive false) _ He) as He'.
  destruct (target_with has_addScore w e) as [t|], (enemy_game e);
    rewrite ?Game_remove_get_enemy, ?Game_remove_trace,
      ?Player_addScore_get_enemy, ?Player_addScore_trace, ?modify_enemy_trace,
      ?app_nil_r, <- ?app_assoc;
    split; try done.
Qed.

Lemma Enemy_takeDamage_spec (this : Ref) (amount : R) (w : World) (e : Enemy) :
  get_enemy w this = Some e →
  get_enemy (Enemy_takeDamage this amount w) this = Some (set_enemy_alive false e)
  ∧ count (is_remove_of this) (world_trace (Enemy_takeDamage this amount w))
    = (count (is_remove_of this) (world_trace w) + if enemy_game e then 1 else 0)%nat.
Proof.
  intros He. unfold Enemy_takeDamage.
  destruct (Enemy_die_spec this (emit (CallTakeDamage this amount) w) e He)
    as [Hget Htrace].
  split; [exact Hget|].
  rewrite Htrace; simpl. rewrite !count_app, count_singleton; simpl.
  assert (Hscore : count (is_remove_of this)
                     match target_with has_addScore (emit (CallTakeDamage this amount) w) e with
                     | Some t => [CallAddScore t 10]
                     | None => []
                     end = 0%nat) by (by case_match).
  rewrite Hscore. destruct (enemy_game e).
  - rewrite count_singleton; simpl. rewrite bool_decide_eq_true_2 by done. lia.
  - rewrite count_nil. lia.
Qed.

Lemma Enemy_hits_spec (this : Ref) (amounts : list R) (w : World) (e : Enemy) :
  get_enemy w this = Some e →
  count (is_remove_of this) (world_trace (Enemy_hits this amounts w))
  = (count (is_remove_of this) (world_trace w)
     + if enemy_game e then length amounts else 0)%nat
  ∧ get_enemy (Enemy_hits this amounts w) this
    = Some (match amounts with [] => e | _ => set_enemy_alive false e end).
Proof.
  revert w e. induction amounts as [|amount amounts IH]; intros w e He.
  - simpl. split; [destruct (enemy_game e); lia | done].
  - destruct (Enemy_takeDamage_spec this amount w e He) as [Hget Hcount].
    destruct (IH _ _ Hget) as [IHcount IHget].
    simpl. rewrite IHcount, IHget, Hcount; simpl.
    split; [destruct (enemy_game e); lia | by destruct amounts].
Qed.

(** C6, as the code has it.  [takeDamage] ignores the amount and has no
    guard on [alive]: every call leaves [alive] false, so the flag goes from
    true to false at the first call on a live enemy and stays false, and
    every call issues one removal request when the enemy holds the driver
    (none when it does not), so [n] calls issue [n] requests. *)
Theorem Enemy_hits_requests (this : Ref) (amounts : list R) (w : World) (e : Enemy) :
  get_enemy w this = Some e →
  count (is_remove_of this) (world_trace (Enemy_hits this amounts w))
  = (count (is_remove_of this) (world_trace w)
     + if enemy_game e then length amounts else 0)%nat
  ∧ (amounts ≠ [] →
     enemy_alive <$> get_enemy (Enemy_hits this amounts w) this = Some false).
Proof.
  intros He. destruct (Enemy_hits_spec this amounts w e He) as [Hcount Hget].
  split; [exact Hcount|]. intros Hne. rewrite Hget. by destruct amounts.
Qed.

Lemma Enemy_hits_requests_witness :
  count (is_remove_of 0%nat) (world_trace (Enemy_hits 0%nat [3] enemy_in_game)) = 1%nat
  ∧ enemy_alive <$> get_enemy (Enemy_hits 0%nat [3] enemy_in_game) 0%nat = Some false.
Proof.
  destruct (Enemy_hits_requests 0%nat [3] enemy_in_game
              (set_enemy_game true (Enemy_new no_EnemyOptions 0 0)) eq_refl)
    as [Hcount Halive].
  split; [exact Hcount | by apply Halive].
Defined.

(** C6 as stated fails: two calls issue two removal requests. *)
Lemma Enemy_two_hits_two_requests :
  count (is_remove_of 0%nat) (world_trace (Enemy_hits 0%nat [5; 5] enemy_in_game)) = 2%nat
  ∧ count (is_remove_of 0%nat) (world_trace (Enemy_hits 0%nat [5; 5] enemy_in_game)) ≠ 1%nat.
Proof.
  destruct (Enemy_hits_spec 0%nat [5; 5] enemy_in_game
              (set_enemy_game true (Enemy_new no_EnemyOptions 0 0)) eq_refl)
    as [Hcount _].
  rewrite Hcount. split; [reflexivity | discriminate].
Qed.

(** An enemy that was never added to a driver issues no request. *)
Lemma Enemy_hit_without_game :
  count (is_remove_of 0%nat)
    (world_trace (Enemy_hits 0%nat [5]
                    (world_of (OEnemy (Enemy_new no_EnemyOptions 0 0))))) = 0%nat.
Proof.
  destruct (Enemy_hits_spec 0%nat [5] (world_of (OEnemy (Enemy_new no_EnemyOptions 0 0)))
              (Enemy_new no_EnemyOptions 0 0) eq_refl) as [Hcount _].
  by rewrite Hcount.
Qed.

(** ** Enemy attacks *)

Lemma Enemy_targetPosition_lookup (w : World) (e : Enemy) (t : Ref) (o : Obj) :
  enemy_target e = Some t →
  world_heap w !! t = Some o →
  Enemy_targetPosition w e = obj_mesh o.
Proof.
  intros Ht Ho. unfold Enemy_targetPosition, mesh_of. rewrite Ht; simpl. by rewrite Ho.
Qed.

(** [attack] on a target without [takeDamage] only counts as a call. *)
Lemma Enemy_attack_no_takeDamage (this : Ref) (w : World) (e : Enemy) (t : Ref) (o : Obj) :
  get_enemy w this = Some e →
  enemy_target e = Some t →
  world_heap w !! t = Some o →
  has_takeDamage o = false →
  Enemy_attack this w = emit (CallAttack this) w.
Proof.
  intros He Ht Ho Hcap. unfold Enemy_attack.
  change (get_enemy (emit (CallAttack this) w) this) with (get_enemy w this).
  rewrite He. unfold target_with. rewrite Ht; simpl. rewrite Ho; simpl.
  by rewrite Hcap.
Qed.

(** C10. The target has a position and no [takeDamage] method, the enemy
    is within its attack range and the cooldown has elapsed: [tryAttack]
    calls [attack] and sets [timeSinceAttack] to 0; the target object is
    unchanged, the trace gains the call of [attack] alone (no [takeDamage]
    call, no flash), the enemy's colour is unchanged and no timeout is
    registered. *)
Theorem Enemy_tryAttack_without_takeDamage
    (this : Ref) (w : World) (e : Enemy) (t : Ref) (o : Obj) (tp : Vector3.t) :
  get_enemy w this = Some e →
  enemy_target e = Some t →
  world_heap w !! t = Some o →
  obj_mesh o = Some tp →
  has_takeDamage o = false →
  Vector3.distanceTo (enemy_position e) tp <= enemy_attackRange e →
  enemy_timeSinceAttack e >= enemy_attackCooldown e →
  let w' := Enemy_tryAttack this w in
  get_enemy w' this = Some (set_enemy_timeSinceAttack 0 e)
  ∧ world_heap w' !! t = Some o
  ∧ world_trace w' = world_trace w ++ [CallAttack this]
  ∧ count (is_takeDamage_of t) (world_trace w') = count (is_takeDamage_of t) (world_trace w)
  ∧ count (is_flash_of this) (world_trace w') = count (is_flash_of this) (world_trace w)
  ∧ world_timers w' = world_timers w.
Proof.
  intros He Ht Ho Hmesh Hcap Hrange Hcool; simpl.
  assert (Hne : this ≠ t).
  { intros ->. apply get_enemy_heap in He. rewrite He in Ho.
    injection Ho as <-. discriminate Hcap. }
  unfold Enemy_tryAttack. rewrite He.
  rewrite (Enemy_targetPosition_lookup w e t o Ht Ho), Hmesh.
  rewrite decide_True by done.
  rewrite (Enemy_attack_no_takeDamage this w e t o He Ht Ho Hcap).
  unfold modify_enemy.
  change (get_enemy (emit (CallAttack this) w) this) with (get_enemy w this).
  rewrite He. split_and!.
  - apply get_enemy_set_obj.
  - by rewrite heap_set_obj_ne.
  - reflexivity.
  - simpl. rewrite count_app, count_singleton; simpl. lia.
  - simpl. rewrite count_app, count_singleton; simpl. lia.
  - reflexivity.
Qed.

Lemma Enemy_tryAttack_without_takeDamage_witness :
  get_enemy (Enemy_tryAttack 0%nat enemy_facing_ground) 0%nat
  = Some (set_enemy_timeSinceAttack 0 ready_enemy)
  ∧ world_heap (Enemy_tryAttack 0%nat enemy_facing_ground) !! 1%nat
    = Some (OGround (Ground_new (mkGroundOptions None None)))
  ∧ world_trace (Enemy_tryAttack 0%nat enemy_facing_ground) = [CallAttack 0%nat]
  ∧ count (is_takeDamage_of 1%nat) (world_trace (Enemy_tryAttack 0%nat enemy_facing_ground))
    = 0%nat
  ∧ count (is_flash_of 0%nat) (world_trace (Enemy_tryAttack 0%nat enemy_facing_ground))
    = 0%nat
  ∧ world_timers (Enemy_tryAttack 0%nat enemy_facing_ground) = [].
Proof.
  apply (Enemy_tryAttack_without_takeDamage 0%nat enemy_facing_ground ready_enemy 1%nat
           (OGround (Ground_new (mkGroundOptions None None))) Vector3.zero);
    try reflexivity.
  unfold Vector3.distanceTo, Vector3.length, Vector3.lengthSq; simpl.
  replace ((0 - 0) * (0 - 0) + (0 - 0) * (0 - 0) + (0 - 0) * (0 - 0)) with 0 by ring.
  rewrite sqrt_0. lra.
Defined.

Lemma Enemy_targetPosition_set_enemy (w : World) (this : Ref) (e e' e'' : Enemy)
    (tp : Vector3.t) :
  Enemy_targetPosition w e = Some tp →
  enemy_target e'' = enemy_target e →
  ∃ tp', Enemy_targetPosition (set_obj this (OEnemy e') w) e'' = Some tp'
         ∧ (enemy_target e ≠ Some this → tp' = tp)
         ∧ (enemy_target e = Some this → tp' = enemy_position e').
Proof.
  unfold Enemy_targetPosition. intros Htp ->.
  destruct (enemy_target e) as [t|]; [simpl in *|done].
  unfold mesh_of in *. destruct (decide (this = t)) as [->|Hne].
  - exists (enemy_position e'). unfold set_obj; simpl. rewrite lookup_insert_eq.
    split_and!; [done | congruence | done].
  - exists tp. rewrite heap_set_obj_ne by done.
    split_and!; [done | done | congruence].
Qed.

(** The enemy and the trace when [update] reaches [tryAttack]: the enemy
    is still there with its target in reach of [mesh], the timer and the
    attack parameters are those [chaseTarget] found, and an enemy that was
    within its planar range has not moved. *)
Lemma Enemy_chaseTarget_spec (this : Ref) (delta : R) (w : World) (e : Enemy)
    (tp : Vector3.t) :
  get_enemy w this = Some e →
  Enemy_targetPosition w e = Some tp →
  ∃ e1 tp1,
    get_enemy (Enemy_chaseTarget this delta w) this = Some e1
    ∧ Enemy_targetPosition (Enemy_chaseTarget this delta w) e1 = Some tp1
    ∧ world_trace (Enemy_chaseTarget this delta w) = world_trace w
    ∧ enemy_timeSinceAttack e1 = enemy_timeSinceAttack e
    ∧ enemy_attackRange e1 = enemy_attackRange e
    ∧ enemy_attackCooldown e1 = enemy_attackCooldown e
    ∧ (enemy_target e ≠ Some this → tp1 = tp)
    ∧ (Vector3.length (Vector3.set_y (Vector3.subVectors tp (enemy_position e)) 0)
       <= enemy_attackRange e →
       enemy_position e1 = enemy_position e).
Proof.
  intros He Htp. unfold Enemy_chaseTarget. rewrite He, Htp.
  set (e' := if decide (_ > enemy_attackRange e) then _ else e).
  assert (Hfields : enemy_target e' = enemy_target e
                    ∧ enemy_timeSinceAttack e' = enemy_timeSinceAttack e
                    ∧ enemy_attackRange e' = enemy_attackRange e
                    ∧ enemy_attackCooldown e' = enemy_attackCooldown e)
    by (subst e'; by case_decide).
  destruct Hfields as (Htarget & Htsa & Hrange & Hcool).
  destruct (Enemy_targetPosition_set_enemy w this e e' e' tp Htp Htarget)
    as (tp' & Htp' & Hother & _).
  rewrite Htp'.
  set (e1 := set_enemy_lookAt _ e').
  destruct (Enemy_targetPosition_set_enemy (set_obj this (OEnemy e') w) this e' e1 e1 tp'
              Htp' eq_refl) as (tp1 & Htp1 & Hother1 & _).
  exists e1, tp1. split_and!; try done.
  - apply get_enemy_set_obj.
  - intros Hne. rewrite Hother1, Hother; congruence.
  - intros Hnear. subst e1 e'; simpl. rewrite decide_False; [done | lra].
Qed.

Lemma Enemy_die_other (this r : Ref) (w : World) :
  r ≠ this → get_enemy (Enemy_die this w) r = get_enemy w r.
Proof.
  intros Hne. unfold Enemy_die.
  assert (Hmod : get_enemy (modify_enemy this (set_enemy_alive false) w) r = get_enemy w r).
  { unfold modify_enemy. destruct (get_enemy w this); [|done].
    unfold get_enemy. by rewrite heap_set_obj_ne. }
  repeat case_match;
    by rewrite ?Game_remove_get_enemy, ?Player_addScore_get_enemy.
Qed.

Lemma Enemy_die_no_enemy (this : Ref) (w : World) :
  get_enemy w this = None → Enemy_die this w = w.
Proof. intros He. unfold Enemy_die, modify_enemy. by rewrite He, He. Qed.

Lemma Enemy_die_attacks (this r : Ref) (w : World) :
  count (is_attack_of r) (world_trace (Enemy_die this w))
  = count (is_attack_of r) (world_trace w).
Proof.
  destruct (get_enemy w this) as [e|] eqn:He.
  - destruct (Enemy_die_spec this w e He) as [_ ->].
    rewrite !count_app. case_match; destruct (enemy_game e);
      rewrite ?count_singleton, ?count_nil; simpl; lia.
  - by rewrite Enemy_die_no_enemy.
Qed.

(** A call of [takeDamage] leaves an enemy an enemy and attacks nobody. *)
Lemma call_takeDamage_spec (this t : Ref) (amount : R) (w : World) (e : Enemy) :
  get_enemy w this = Some e →
  is_Some (get_enemy (call_takeDamage t amount w) this)
  ∧ count (is_attack_of this) (world_trace (call_takeDamage t amount w))
    = count (is_attack_of this) (world_trace w).
Proof.
  intros He. unfold call_takeDamage.
  destruct (world_heap w !! t) as [[g|p|et|o]|] eqn:Ht; try by rewrite He.
  - rewrite Player_takeDamage_get_enemy, Player_takeDamage_trace, count_app, He.
    split; [done|]. rewrite count_singleton; simpl. lia.
  - unfold Enemy_takeDamage. rewrite Enemy_die_attacks; simpl.
    rewrite count_app, count_singleton; simpl. split; [|lia].
    destruct (decide (this = t)) as [->|Hne].
    + by destruct (Enemy_die_spec t (emit (CallTakeDamage t amount) w) e He) as [-> _].
    + rewrite Enemy_die_other by done.
      change (get_enemy (emit ?ev w) this) with (get_enemy w this). by rewrite He.
Qed.

Lemma Enemy_attack_spec (this : Ref) (w : World) (e : Enemy) :
  get_enemy w this = Some e →
  is_Some (get_enemy (Enemy_attack this w) this)
  ∧ count (is_attack_of this) (world_trace (Enemy_attack this w))
    = S (count (is_attack_of this) (world_trace w)).
Proof.
  intros He. unfold Enemy_attack.
  change (get_enemy (emit (CallAttack this) w) this) with (get_enemy w this).
  rewrite He.
  assert (Hemit : count (is_attack_of this) (world_trace (emit (CallAttack this) w))
                  = S (count (is_attack_of this) (world_trace w))).
  { simpl. rewrite count_app, count_singleton; simpl.
    rewrite bool_decide_eq_true_2 by done. lia. }
  destruct (target_with has_takeDamage _ e) as [t|].
  - destruct (call_takeDamage_spec this t (enemy_damage e) (emit (CallAttack this) w) e He)
      as [[e' He'] Hcount].
    change (get_enemy (emit (CallFlash this) ?w') this) with (get_enemy w' this).
    rewrite He'. split.
    + change (get_enemy (set_timers ?ts ?w') this) with (get_enemy w' this).
      rewrite get_enemy_set_obj. done.
    + simpl. rewrite count_app, count_singleton, Hcount, Hemit; simpl. lia.
  - change (get_enemy (emit (CallAttack this) w) this) with (get_enemy w this).
    by rewrite He.
Qed.

(** [tryAttack] calls [attack] once if its test holds and not at all if it
    does not; it sets the timer to 0 in the first case and leaves it alone
    in the second. *)
Lemma Enemy_tryAttack_spec (this : Ref) (w : World) (e : Enemy) (tp : Vector3.t) :
  get_enemy w this = Some e →
  Enemy_targetPosition w e = Some tp →
  (attack_ready e tp →
   count (is_attack_of this) (world_trace (Enemy_tryAttack this w))
   = S (count (is_attack_of this) (world_trace w))
   ∧ enemy_timeSinceAttack <$> get_enemy (Enemy_tryAttack this w) this = Some 0)
  ∧ (¬ attack_ready e tp → Enemy_tryAttack this w = w).
Proof.
  intros He Htp. unfold Enemy_tryAttack, attack_ready. rewrite He, Htp.
  split; intros Hready.
  - rewrite decide_True by done.
    destruct (Enemy_attack_spec this w e He) as [[e' He'] Hcount].
    rewrite modify_enemy_trace, Hcount.
    by rewrite (get_enemy_modify _ _ _ _ He').
  - by rewrite decide_False.
Qed.

(** C5. A live enemy whose target has a position is updated.  Let [e1] be
    the enemy and [tp1] the target's position when [update] reaches
    [tryAttack], that is with the timer advanced by [delta] and after
    [chaseTarget] (which leaves an enemy within its planar range where it
    was).  [attack] is called during the update, once, if and only if the
    distance from [e1] to [tp1] is at most [attackRange] and the advanced
    timer is at least [attackCooldown]; if it is called the timer reads 0
    after the update, and otherwise it reads the advanced value. *)
Theorem Enemy_update_attack (this : Ref) (delta : R) (w : World) (e : Enemy)
    (tp : Vector3.t) :
  get_enemy w this = Some e →
  enemy_alive e = true →
  Enemy_targetPosition w e = Some tp →
  ∃ e1 tp1,
    get_enemy (Enemy_beforeTryAttack this delta w) this = Some e1
    ∧ Enemy_targetPosition (Enemy_beforeTryAttack this delta w) e1 = Some tp1
    ∧ enemy_timeSinceAttack e1 = enemy_timeSinceAttack e + delta
    ∧ enemy_attackRange e1 = enemy_attackRange e
    ∧ enemy_attackCooldown e1 = enemy_attackCooldown e
    ∧ (enemy_target e ≠ Some this → tp1 = tp)
    ∧ (Vector3.length (Vector3.set_y (Vector3.subVectors tp (enemy_position e)) 0)
       <= enemy_attackRange e →
       enemy_position e1 = enemy_position e)
    ∧ (count (is_attack_of this) (world_trace (Enemy_update this delta w))
       = S (count (is_attack_of this) (world_trace w))
       ↔ attack_ready e1 tp1)
    ∧ (count (is_attack_of this) (world_trace (Enemy_update this delta w))
       = count (is_attack_of this) (world_trace w)
       ↔ ¬ attack_ready e1 tp1)
    ∧ (attack_ready e1 tp1 →
       enemy_timeSinceAttack <$> get_enemy (Enemy_update this delta w) this = Some 0)
    ∧ (¬ attack_ready e1 tp1 →
       enemy_timeSinceAttack <$> get_enemy (Enemy_update this delta w) this
       = Some (enemy_timeSinceAttack e + delta)).
Proof.
  intros He Halive Htp.
  pose proof (get_enemy_modify w this (Enemy_tick delta) e He) as He0.
  assert (Hw0 : modify_enemy this (Enemy_tick delta) w
                = set_obj this (OEnemy (Enemy_tick delta e)) w)
    by (unfold modify_enemy; by rewrite He).
  destruct (Enemy_targetPosition_set_enemy w this e (Enemy_tick delta e) e tp Htp eq_refl)
    as (tp0 & Htp0 & Hother0 & Hself0).
  assert (Htp0' : tp0 = tp).
  { destruct (decide (enemy_target e = Some this)) as [Hself|Hother]; [|by apply Hother0].
    rewrite (Hself0 Hself). unfold Enemy_targetPosition, mesh_of in Htp.
    rewrite Hself in Htp; simpl in Htp. apply get_enemy_heap in He.
    rewrite He in Htp. by injection Htp. }
  subst tp0. rewrite <- Hw0 in Htp0.
  destruct (Enemy_chaseTarget_spec this delta _ (Enemy_tick delta e) tp He0 Htp0)
    as (e1 & tp1 & He1 & Htp1 & Htrace1 & Htsa & Hrange & Hcool & Hother & Hnear).
  fold (Enemy_beforeTryAttack this delta w) in He1, Htp1, Htrace1.
  rewrite modify_enemy_trace in Htrace1.
  destruct (Enemy_tryAttack_spec this _ e1 tp1 He1 Htp1) as [Hfire Hidle].
  exists e1, tp1. split_and!; try done.
  all: unfold Enemy_update; rewrite He, Halive, Htp0;
    fold (Enemy_beforeTryAttack this delta w); rewrite ?modify_enemy_trace.
  - split.
    + intros Hcount. destruct (decide (attack_ready e1 tp1)) as [|Hno]; [done|].
      rewrite (Hidle Hno), Htrace1 in Hcount. lia.
    + intros Hready. destruct (Hfire Hready) as [-> _]. by rewrite Htrace1.
  - split.
    + intros Hcount Hready. destruct (Hfire Hready) as [Hc _].
      rewrite Hc, Htrace1 in Hcount. lia.
    + intros Hno. by rewrite (Hidle Hno), Htrace1.
  - intros Hready. destruct (Hfire Hready) as [_ Htimer].
    destruct (get_enemy (Enemy_tryAttack this _) this) as [e2|] eqn:He2; [|done].
    rewrite (get_enemy_modify _ _ _ _ He2). exact Htimer.
  - intros Hno. rewrite (Hidle Hno), (get_enemy_modify _ _ _ _ He1); simpl.
    by rewrite Htsa.
Qed.

Lemma Enemy_update_attack_witness :
  count (is_attack_of 0%nat) (world_trace (Enemy_update 0%nat (1 / 10) enemy_facing_ground))
  = 1%nat
  ∧ enemy_timeSinceAttack <$> get_enemy (Enemy_update 0%nat (1 / 10) enemy_facing_ground) 0%nat
    = Some 0.
Proof.
  destruct (Enemy_update_attack 0%nat (1 / 10) enemy_facing_ground ready_enemy Vector3.zero
              eq_refl eq_refl eq_refl)
    as (e1 & tp1 & _ & _ & Htsa & Hrange & Hcool & Hother & Hnear & [_ Hfires] & _ & Hzero & _).
  assert (Hlen : Vector3.length (Vector3.mk 0 0 0) = 0).
  { unfold Vector3.length, Vector3.lengthSq; simpl.
    replace (0 * 0 + 0 * 0 + 0 * 0) with 0 by ring. apply sqrt_0. }
  assert (Hready : attack_ready e1 tp1).
  { unfold attack_ready. rewrite Htsa, Hrange, Hcool, Hother, Hnear; simpl.
    - unfold Vector3.distanceTo, Vector3.subVectors; simpl.
      replace (0 - 0) with 0 by ring. rewrite Hlen. lra.
    - unfold Vector3.subVectors, Vector3.set_y; simpl.
      replace (0 - 0) with 0 by ring. rewrite Hlen. lra.
    - discriminate. }
  split; [exact (Hfires Hready) | exact (Hzero Hready)].
Defined.

(** * Further properties *)

(** ** Input *)

(** X1. The key table answers for the last event of each key: a key is down
    after its [keydown], up after its [keyup], other keys are not touched,
    and a key that never had an event is up. *)
Theorem Input_isKeyDown_events (code code' : string) (i : Input.t) :
  Input.isKeyDown code (Input.keydown code' i)
  = (if decide (code = code') then true else Input.isKeyDown code i)
  ∧ Input.isKeyDown code (Input.keyup code' i)
    = (if decide (code = code') then false else Input.isKeyDown code i)
  ∧ Input.isKeyDown code Input.new = false.
Proof.
  unfold Input.isKeyDown, Input.keydown, Input.keyup; simpl.
  split_and!.
  - case_decide as Heq; [subst; by rewrite lookup_insert_eq | by rewrite lookup_insert_ne].
  - case_decide as Heq; [subst; by rewrite lookup_insert_eq | by rewrite lookup_insert_ne].
  - by rewrite lookup_empty.
Qed.

(** X2. With the pointer locked the mouse delta is the movement of the last
    [mousemove] event, not a sum over events; reading it drains it, so a
    second read with no event in between returns (0, 0).  Without the lock
    a [mousemove] leaves the delta as it was. *)
Theorem Input_mouse_delta (a1 a2 b1 b2 : R) (i : Input.t) :
  let locked := Input.pointerlockchange true i in
  let moved := Input.mousemove (Some b1) (Some b2) (Input.mousemove (Some a1) (Some a2) locked) in
  fst (Input.getMouseDelta moved) = (b1, b2)
  ∧ fst (Input.getMouseDelta (snd (Input.getMouseDelta moved))) = (0, 0)
  ∧ fst (Input.getMouseDelta
           (Input.mousemove (Some a1) (Some a2) (Input.pointerlockchange false i)))
    = (Input.mouse_deltaX i, Input.mouse_deltaY i).
Proof.
  simpl. split_and!; try reflexivity.
  unfold num_or. f_equal; case_decide; congruence.
Qed.

(** ** Player look and jump *)

Lemma PI2_bounds : - PI / 2 < PI / 2.
Proof. pose proof PI_RGT_0. lra. Qed.

Lemma Player_look_pitch (mouseDelta : R * R) (p : Player) :
  - PI / 2 <= player_rotation_x (Player_look mouseDelta p) <= PI / 2.
Proof.
  unfold Player_look; simpl. pose proof PI2_bounds.
  split; [apply Rmax_l|].
  apply Rmax_lub; [lra | apply Rmin_l].
Qed.

(** X3. [handleInput] and the view angles.  With the pointer locked the
    yaw is turned by the horizontal mouse delta times the sensitivity, and
    the pitch is turned by the vertical one and then clamped: it ends in
    [-PI/2, PI/2] whatever the mouse delta and the previous pitch were.
    Without the lock the pitch and the yaw are left as they were. *)
Theorem Player_handleInput_pitch (delta : R) (i : Input.t) (p : Player) :
  let p' := fst (Player_handleInput delta i p) in
  if Input.pointerLocked i
  then - PI / 2 <= player_rotation_x p' <= PI / 2
       ∧ player_rotation_x p'
         = Rmax (- PI / 2)
             (Rmin (PI / 2)
                (player_rotation_x p - Input.mouse_deltaY i * player_mouseSensitivity p))
       ∧ player_rotation_y p'
         = player_rotation_y p - Input.mouse_deltaX i * player_mouseSensitivity p
  else player_rotation_x p' = player_rotation_x p
       ∧ player_rotation_y p' = player_rotation_y p.
Proof.
  intros p'. subst p'. unfold Player_handleInput.
  set (looked := if Input.pointerLocked i
                 then let '(mouseDelta, i0) := Input.getMouseDelta i in
                      (Player_look mouseDelta p, i0)
                 else (p, i)).
  assert (Hlooked : fst looked
                    = if Input.pointerLocked i
                      then Player_look (Input.mouse_deltaX i, Input.mouse_deltaY i) p
                      else p)
    by (subst looked; by destruct (Input.pointerLocked i)).
  destruct looked as [p1 i1]; simpl in Hlooked.
  assert (Hrot : ∀ q : Player,
            (player_rotation_x q = player_rotation_x p1
             ∧ player_rotation_y q = player_rotation_y p1) →
            if Input.pointerLocked i
            then - PI / 2 <= player_rotation_x q <= PI / 2
                 ∧ player_rotation_x q
                   = Rmax (- PI / 2)
                       (Rmin (PI / 2)
                          (player_rotation_x p
                           - Input.mouse_deltaY i * player_mouseSensitivity p))
                 ∧ player_rotation_y q
                   = player_rotation_y p
                     - Input.mouse_deltaX i * player_mouseSensitivity p
            else player_rotation_x q = player_rotation_x p
                 ∧ player_rotation_y q = player_rotation_y p).
  { intros q [Hx Hy]. rewrite Hx, Hy, Hlooked.
    destruct (Input.pointerLocked i); [|done].
    split; [exact (Player_look_pitch _ p)|]. done. }
  case_decide; destruct (Input.isKeyDown "Space" i1 && _); apply Hrot; done.
Qed.

(** X4. There is no jump in mid-air: when the player is not on the ground,
    [handleInput] leaves the velocity and the ground flag as they are,
    whatever keys are held. *)
Theorem Player_handleInput_airborne (delta : R) (i : Input.t) (p : Player) :
  player_onGround p = false →
  player_velocity (fst (Player_handleInput delta i p)) = player_velocity p
  ∧ player_onGround (fst (Player_handleInput delta i p)) = false.
Proof.
  intros Hair. unfold Player_handleInput.
  set (looked := if Input.pointerLocked i then _ else _).
  assert (Hlooked : player_velocity (fst looked) = player_velocity p
                    ∧ player_onGround (fst looked) = false)
    by (subst looked; by destruct (Input.pointerLocked i)).
  destruct looked as [p1 i1], Hlooked as [Hv Hg]; simpl in Hv, Hg.
  case_decide; simpl; rewrite Hg, andb_false_r; simpl; by rewrite ?Hv, ?Hg.
Qed.

Lemma Player_handleInput_airborne_witness :
  player_velocity (fst (Player_handleInput (1 / 60) space_held (Player_new no_PlayerOptions)))
  = Vector3.zero.
Proof.
  apply (Player_handleInput_airborne (1 / 60) space_held (Player_new no_PlayerOptions)).
  reflexivity.
Defined.



(** X6. A player at rest stays at rest: at the ground height 1 with no
    upward velocity and gravity pointing down, [applyPhysics] over any step
    [delta >= 0] leaves the player at height 1 with vertical velocity 0 and
    the ground flag set. *)
Theorem Player_applyPhysics_rest (delta : R) (p : Player) :
  0 <= delta →
  Vector3.y (player_position p) = 1 →
  Vector3.y (player_velocity p) <= 0 →
  player_gravity p <= 0 →
  let p' := Player_applyPhysics delta p in
  Vector3.y (player_position p') = 1
  ∧ Vector3.y (player_velocity p') = 0
  ∧ player_onGround p' = true.
Proof.
  intros Hdelta Hy Hv Hg. unfold Player_applyPhysics; simpl.
  rewrite Hy. rewrite decide_True by nra. done.
Qed.

Lemma Player_applyPhysics_rest_witness :
  let p' := Player_applyPhysics (1 / 60) grounded_player in
  Vector3.y (player_position p') = 1
  ∧ Vector3.y (player_velocity p') = 0
  ∧ player_onGround p' = true.
Proof.
  apply (Player_applyPhysics_rest (1 / 60) grounded_player); simpl; lra.
Defined.

(** ** Player in the world *)

Lemma Player_updateCamera_heap (this : Ref) (w : World) :
  world_heap (Player_updateCamera this w) = world_heap w.
Proof. unfold Player_updateCamera. by repeat case_match. Qed.

Lemma Player_updateCamera_get (this r : Ref) (w : World) :
  get_player (Player_updateCamera this w) r = get_player w r.
Proof. unfold get_player. by rewrite Player_updateCamera_heap. Qed.

(** The player [update] leaves: the input step (if the player holds an
    input source), the physics step and the bounds, in this order. *)
Lemma Player_update_get (this : Ref) (delta : R) (w : World) (p : Player) :
  get_player w this = Some p →
  get_player (Player_update this delta w) this
  = Some (Player_checkBounds
            (Player_applyPhysics delta
               match (if player_input p then game_input (world_game w) else None) with
               | Some i => fst (Player_handleInput delta i p)
               | None => p
               end)).
Proof.
  intros Hp. unfold Player_update. rewrite Hp.
  destruct (if player_input p then game_input (world_game w) else None) as [i|].
  - destruct (Player_handleInput delta i p) as [p1 i1]; simpl.
    apply get_player_set_obj.
  - apply get_player_set_obj.
Qed.

Lemma Player_checkBounds_position (p : Player) :
  - 50 <= Vector3.x (player_position (Player_checkBounds p)) <= 50
  ∧ - 50 <= Vector3.z (player_position (Player_checkBounds p)) <= 50
  ∧ Vector3.y (player_position (Player_checkBounds p)) = Vector3.y (player_position p).
Proof.
  unfold Player_checkBounds; simpl. split_and!; try done.
  - apply Rmax_l.
  - apply Rmax_lub; [lra | apply Rmin_l].
  - apply Rmax_l.
  - apply Rmax_lub; [lra | apply Rmin_l].
Qed.

(** X7. After [update] the player is inside the world bounds and not below
    the ground: x and z lie in [-50, 50] and y is at least 1, whatever the
    elapsed time, the input and the previous state were. *)
Theorem Player_update_in_bounds (this : Ref) (delta : R) (w : World) (p : Player) :
  get_player w this = Some p →
  ∃ p', get_player (Player_update this delta w) this = Some p'
        ∧ - 50 <= Vector3.x (player_position p') <= 50
        ∧ - 50 <= Vector3.z (player_position p') <= 50
        ∧ 1 <= Vector3.y (player_position p').
Proof.
  intros Hp. eexists. split; [by apply Player_update_get|].
  destruct (Player_checkBounds_position
              (Player_applyPhysics delta
                 match (if player_input p then game_input (world_game w) else None) with
                 | Some i => fst (Player_handleInput delta i p)
                 | None => p
                 end)) as (Hx & Hz & Hy).
  split; [exact Hx|]. split; [exact Hz|].
  rewrite Hy. apply Player_applyPhysics_floor.
Qed.

Lemma Player_update_in_bounds_witness :
  ∃ p', get_player (Player_update 0%nat (1 / 60) fresh_player_world) 0%nat = Some p'
        ∧ - 50 <= Vector3.x (player_position p') <= 50
        ∧ - 50 <= Vector3.z (player_position p') <= 50
        ∧ 1 <= Vector3.y (player_position p').
Proof.
  apply (Player_update_in_bounds 0%nat (1 / 60) fresh_player_world
           (Player_new no_PlayerOptions)).
  reflexivity.
Defined.

(** X8. The camera follows the player.  Let [q] be the player after
    [handleInput] (when it holds an input source) and [applyPhysics].  For a
    player that holds the driver, [update] leaves the player as
    [checkBounds] of [q], sets the camera rotation to the rotation of [q]
    and the camera position to the position of [q] plus the rotated eye
    offset: the camera is placed from the position before [checkBounds]. *)
Theorem Player_update_camera (this : Ref) (delta : R) (w : World) (p : Player) :
  get_player w this = Some p →
  player_game p = true →
  let q := Player_applyPhysics delta
             match (if player_input p then game_input (world_game w) else None) with
             | Some i => fst (Player_handleInput delta i p)
             | None => p
             end in
  get_player (Player_update this delta w) this = Some (Player_checkBounds q)
  ∧ game_camera_rotation (world_game (Player_update this delta w))
    = (player_rotation_x q, player_rotation_y q)
  ∧ game_camera_position (world_game (Player_update this delta w))
    = Vector3.add (player_position q)
        (Vector3.applyEulerYXZ (player_cameraOffset q)
           (player_rotation_x q) (player_rotation_y q)).
Proof.
  intros Hp Hgame q. split; [by apply Player_update_get|].
  subst q. unfold Player_update. rewrite Hp.
  assert (Hcam : ∀ q w', player_game q = true →
            world_game (set_obj this (OPlayer (Player_checkBounds q))
                          (Player_updateCamera this (set_obj this (OPlayer q) w')))
            = set_camera
                (Vector3.add (player_position q)
                   (Vector3.applyEulerYXZ (player_cameraOffset q)
                      (player_rotation_x q) (player_rotation_y q)))
                (player_rotation_x q, player_rotation_y q) (world_game w')).
  { intros q w' Hq. unfold Player_updateCamera.
    rewrite get_player_set_obj, Hq. reflexivity. }
  destruct (if player_input p then game_input (world_game w) else None) as [i|].
  - assert (Hg : player_game (Player_applyPhysics delta (fst (Player_handleInput delta i p)))
                 = true).
    { unfold Player_applyPhysics, Player_handleInput.
      destruct (Input.pointerLocked i); simpl;
        repeat (case_decide || case_match); simpl; done. }
    destruct (Player_handleInput delta i p) as [p1 i1]; simpl in *.
    rewrite Hcam by done. done.
  - assert (Hg : player_game (Player_applyPhysics delta p) = true)
      by (unfold Player_applyPhysics; by case_decide).
    rewrite Hcam by done. done.
Qed.

Lemma Player_update_camera_witness :
  let q := Player_applyPhysics (1 / 60) added_player in
  get_player (Player_update 0%nat (1 / 60) player_in_game) 0%nat
  = Some (Player_checkBounds q)
  ∧ game_camera_rotation (world_game (Player_update 0%nat (1 / 60) player_in_game))
    = (player_rotation_x q, player_rotation_y q)
  ∧ game_camera_position (world_game (Player_update 0%nat (1 / 60) player_in_game))
    = Vector3.add (player_position q)
        (Vector3.applyEulerYXZ (player_cameraOffset q)
           (player_rotation_x q) (player_rotation_y q)).
Proof.
  apply (Player_update_camera 0%nat (1 / 60) player_in_game added_player); reflexivity.
Defined.

Lemma set_player_other (w : World) (this r : Ref) (p : Player) :
  r ≠ this → world_heap (set_obj this (OPlayer p) w) !! r = world_heap w !! r.
Proof. intros Hne. by apply heap_set_obj_ne. Qed.

(** One call on a player: the record it leaves, the display, and what it
    does not touch. *)
Lemma Player_call_spec (this : Ref) (c : PlayerCall) (w : World) (p : Player) :
  get_player w this = Some p →
  ∃ p', get_player (Player_call this c w) this = Some p'
        ∧ player_score p' = player_score p + points_of c
        ∧ world_ui_health (Player_call this c w) = Some (player_health p')
        ∧ world_ui_score (Player_call this c w) = Some (player_score p')
        ∧ world_game (Player_call this c w) = world_game w
        ∧ (∀ r, r ≠ this → world_heap (Player_call this c w) !! r = world_heap w !! r).
Proof.
  intros Hp. destruct c as [amount|points]; simpl.
  - exists (Player_damaged amount p).
    unfold Player_takeDamage.
    change (get_player (emit (CallTakeDamage this amount) w) this) with (get_player w this).
    rewrite Hp. unfold Player_updateUI. rewrite get_player_set_obj.
    split_and!; try done.
    + apply get_player_set_obj.
    + unfold Player_damaged; simpl. case_decide; simpl; lra.
    + intros r Hne. simpl. by rewrite lookup_insert_ne.
  - exists (Player_scored points p).
    unfold Player_addScore.
    change (get_player (emit (CallAddScore this points) w) this) with (get_player w this).
    rewrite Hp. unfold Player_updateUI. rewrite get_player_set_obj.
    split_and!; try done.
    + apply get_player_set_obj.
    + intros r Hne. simpl. by rewrite lookup_insert_ne.
Qed.

(** X9. The score is the sum of the points awarded and the display is in
    step.  After any sequence of [takeDamage] and [addScore] calls the score
    is the initial score plus the points of the [addScore] calls
    ([takeDamage] does not touch it), and after a sequence of at least one
    call the two text regions show the current health and score. *)
Theorem Player_calls_score (this : Ref) (cs : list PlayerCall) (w : World) (p : Player) :
  get_player w this = Some p →
  ∃ p', get_player (Player_calls this cs w) this = Some p'
        ∧ player_score p' = player_score p + total_points cs
        ∧ (cs ≠ [] →
           world_ui_health (Player_calls this cs w) = Some (player_health p')
           ∧ world_ui_score (Player_calls this cs w) = Some (player_score p')).
Proof.
  revert w p. induction cs as [|c cs IH] using rev_ind; intros w p Hp.
  - exists p. simpl. split_and!; [done | lra | done].
  - destruct (IH w p Hp) as (p1 & Hp1 & Hscore1 & _).
    destruct (Player_call_spec this c _ p1 Hp1) as (p2 & Hp2 & Hscore2 & Huh & Hus & _).
    exists p2. unfold Player_calls in *. rewrite foldl_app; simpl.
    split_and!; try done.
    rewrite Hscore2, Hscore1. unfold total_points. rewrite foldr_app; simpl.
    clear. induction cs as [|c' cs IH]; simpl; lra.
Qed.

Lemma Player_calls_score_witness :
  ∃ p', get_player
          (Player_calls 0%nat [DoAddScore 10; DoTakeDamage 30; DoAddScore 10]
                        fresh_player_world) 0%nat = Some p'
        ∧ player_score p' = 20.
Proof.
  destruct (Player_calls_score 0%nat [DoAddScore 10; DoTakeDamage 30; DoAddScore 10]
              fresh_player_world (Player_new no_PlayerOptions) eq_refl)
    as (p' & Hget & Hscore & _).
  exists p'. split; [exact Hget|]. rewrite Hscore. simpl. lra.
Defined.

(** X10. Calls on the player never reach the driver or another object:
    whatever the sequence of [takeDamage] and [addScore] calls, the world
    collection, the scene and the other fields of the driver are unchanged,
    and so is every other object.  A player whose health has reached 0 is
    still in the collection. *)
Theorem Player_calls_leave_world (this : Ref) (cs : list PlayerCall) (w : World) (p : Player) :
  get_player w this = Some p →
  world_game (Player_calls this cs w) = world_game w
  ∧ (∀ r, r ≠ this → world_heap (Player_calls this cs w) !! r = world_heap w !! r)
  ∧ is_Some (get_player (Player_calls this cs w) this).
Proof.
  revert w p. induction cs as [|c cs IH]; intros w p Hp.
  { simpl. rewrite Hp. eauto. }
  destruct (Player_call_spec this c w p Hp) as (p1 & Hp1 & _ & _ & _ & Hgame & Hheap).
  destruct (IH _ p1 Hp1) as (IHgame & IHheap & IHget).
  simpl. split_and!; [congruence | | done].
  intros r Hne. by rewrite IHheap, Hheap.
Qed.

Lemma Player_calls_leave_world_witness :
  game_entities (world_game (Player_calls 0%nat [DoTakeDamage 150] player_in_game))
  = [0%nat].
Proof.
  destruct (Player_calls_leave_world 0%nat [DoTakeDamage 150] player_in_game
              added_player eq_refl) as (Hgame & _ & _).
  rewrite Hgame. reflexivity.
Defined.

(** X11. A player added before the driver has an input source never reads
    one.  If [game.input] is unset when the player is added, then after any
    later assignment of an input source [update] skips [handleInput]: the
    player goes through the physics step and the bounds only, whatever keys
    are held. *)
Theorem Player_added_before_input (this : Ref) (delta : R) (i : Input.t)
    (w : World) (p : Player) :
  get_player w this = Some p →
  game_input (world_game w) = None →
  let w1 := Game_add this w in
  let w2 := set_game (set_input (Some i) (world_game w1)) w1 in
  ∃ p1, get_player w2 this = Some p1
        ∧ player_input p1 = false
        ∧ get_player (Player_update this delta w2) this
          = Some (Player_checkBounds (Player_applyPhysics delta p1)).
Proof.
  intros Hp Hinput; simpl.
  assert (Hadd : get_player (Game_add this w) this
                 = Some (set_player_position (Vector3.mk 0 1 0)
                           (set_player_refs true false p))).
  { unfold Game_add, init_method.
    change (world_heap (set_game ?g w)) with (world_heap w).
    rewrite (proj1 (get_player_heap w this p) Hp).
    unfold Player_init.
    change (get_player (set_game ?g w) this) with (get_player w this).
    rewrite Hp. unfold Player_updateUI.
    rewrite !Player_updateCamera_get, get_player_set_obj.
    change (get_player (set_ui ?h ?s ?w') this) with (get_player w' this).
    rewrite Player_updateCamera_get, get_player_set_obj.
    destruct (mesh_of w this); simpl; by rewrite Hinput. }
  eexists. split; [exact Hadd|]. split; [done|].
  exact (Player_update_get this delta
           (set_game (set_input (Some i) (world_game (Game_add this w))) (Game_add this w))
           _ Hadd).
Qed.

Lemma Player_added_before_input_witness :
  ∃ p1, get_player (set_game (set_input (Some space_held) (world_game player_in_game))
                      player_in_game) 0%nat = Some p1
        ∧ player_input p1 = false
        ∧ get_player
            (Player_update 0%nat (1 / 60)
               (set_game (set_input (Some space_held) (world_game player_in_game))
                  player_in_game)) 0%nat
          = Some (Player_checkBounds (Player_applyPhysics (1 / 60) p1)).
Proof.
  apply (Player_added_before_input 0%nat (1 / 60) space_held fresh_player_world
           (Player_new no_PlayerOptions)); reflexivity.
Defined.

(** ** What methods leave alone *)

Lemma evolves_refl (w : World) : evolves w w.
Proof. split; [done|]. exists []. by rewrite app_nil_r. Qed.

Lemma evolves_trans (w1 w2 w3 : World) :
  evolves w1 w2 → evolves w2 w3 → evolves w1 w3.
Proof.
  intros [Hs1 (evs1 & Ht1 & Hf1)] [Hs2 (evs2 & Ht2 & Hf2)]. split.
  - intros r. by rewrite Hs2, Hs1.
  - exists (evs1 ++ evs2). rewrite Ht2, Ht1, app_assoc.
    split; [done | by apply Forall_app].
Qed.

(** A write that changes neither the store nor the trace. *)
Lemma evolves_frame (w0 w w' : World) :
  world_heap w' = world_heap w →
  world_trace w' = world_trace w →
  evolves w0 w → evolves w0 w'.
Proof.
  intros Hheap Htrace [Hs (evs & Ht & Hf)]. split.
  - intros r. unfold shape_at. rewrite Hheap. apply Hs.
  - exists evs. by rewrite Htrace.
Qed.

Lemma evolves_emit (ev : Event) (w0 w : World) :
  inner_event ev → evolves w0 w → evolves w0 (emit ev w).
Proof.
  intros Hev Hw. apply (evolves_trans _ w); [done|]. split; [done|].
  exists [ev]. split; [done | by constructor].
Qed.

Lemma evolves_set_obj (r : Ref) (o : Obj) (w0 w : World) :
  shape_at w r = Some (shape_of o) →
  evolves w0 w → evolves w0 (set_obj r o w).
Proof.
  intros Hshape Hw. apply (evolves_trans _ w); [done|]. split.
  - intros r'. unfold shape_at, set_obj; simpl.
    destruct (decide (r = r')) as [<-|Hne].
    + by rewrite lookup_insert_eq.
    + by rewrite lookup_insert_ne.
  - exists []. by rewrite app_nil_r.
Qed.

Lemma shape_at_player (w : World) (r : Ref) (p : Player) :
  get_player w r = Some p → shape_at w r = Some SPlayer.
Proof. intros Hp%get_player_heap. unfold shape_at. by rewrite Hp. Qed.

Lemma shape_at_enemy (w : World) (r : Ref) (e : Enemy) :
  get_enemy w r = Some e → shape_at w r = Some (SEnemy (enemy_target e)).
Proof. intros He%get_enemy_heap. unfold shape_at. by rewrite He. Qed.

Lemma evolves_set_player (r : Ref) (p p' : Player) (w0 w : World) :
  get_player w r = Some p →
  evolves w0 w → evolves w0 (set_obj r (OPlayer p') w).
Proof. intros Hp. apply evolves_set_obj. by rewrite (shape_at_player w r p). Qed.

Lemma evolves_set_enemy (r : Ref) (e e' : Enemy) (w0 w : World) :
  get_enemy w r = Some e →
  enemy_target e' = enemy_target e →
  evolves w0 w → evolves w0 (set_obj r (OEnemy e') w).
Proof.
  intros He Htarget. apply evolves_set_obj.
  rewrite (shape_at_enemy w r e) by done. simpl. by rewrite Htarget.
Qed.

Lemma evolves_modify_enemy (r : Ref) (f : Enemy → Enemy) (w0 w : World) :
  (∀ e, enemy_target (f e) = enemy_target e) →
  evolves w0 w → evolves w0 (modify_enemy r f w).
Proof.
  intros Hf Hw. unfold modify_enemy.
  destruct (get_enemy w r) as [e|] eqn:He; [|done].
  by apply (evolves_set_enemy r e).
Qed.

Lemma evolves_Game_remove (r : Ref) (w0 w : World) :
  evolves w0 w → evolves w0 (Game_remove r w).
Proof.
  intros Hw. apply (evolves_frame w0 (emit (CallRemove r) w)).
  - by rewrite Game_remove_heap.
  - by rewrite Game_remove_trace.
  - by apply evolves_emit.
Qed.

Lemma evolves_Player_updateUI (this : Ref) (w0 w : World) :
  evolves w0 w → evolves w0 (Player_updateUI this w).
Proof.
  intros Hw. unfold Player_updateUI. destruct (get_player w this); [|done].
  by apply (evolves_frame w0 w).
Qed.

Lemma evolves_Player_updateCamera (this : Ref) (w0 w : World) :
  evolves w0 w → evolves w0 (Player_updateCamera this w).
Proof.
  intros Hw. apply (evolves_frame w0 w); [apply Player_updateCamera_heap | | done].
  unfold Player_updateCamera. by repeat case_match.
Qed.

Lemma evolves_Player_takeDamage (this : Ref) (amount : R) (w0 w : World) :
  evolves w0 w → evolves w0 (Player_takeDamage this amount w).
Proof.
  intros Hw. unfold Player_takeDamage.
  assert (Hemit : evolves w0 (emit (CallTakeDamage this amount) w))
    by (by apply evolves_emit).
  destruct (get_player (emit _ w) this) as [p|] eqn:Hp; [|done].
  apply evolves_Player_updateUI. by apply (evolves_set_player this p).
Qed.

Lemma evolves_Player_addScore (this : Ref) (points : R) (w0 w : World) :
  evolves w0 w → evolves w0 (Player_addScore this points w).
Proof.
  intros Hw. unfold Player_addScore.
  assert (Hemit : evolves w0 (emit (CallAddScore this points) w))
    by (by apply evolves_emit).
  destruct (get_player (emit _ w) this) as [p|] eqn:Hp; [|done].
  apply evolves_Player_updateUI. by apply (evolves_set_player this p).
Qed.

Lemma evolves_Enemy_die (this : Ref) (w0 w : World) :
  evolves w0 w → evolves w0 (Enemy_die this w).
Proof.
  intros Hw. unfold Enemy_die.
  assert (Hmod : evolves w0 (modify_enemy this (set_enemy_alive false) w))
    by (by apply evolves_modify_enemy).
  destruct (get_enemy _ this) as [e|]; [|done].
  assert (Hscore : evolves w0
            match target_with has_addScore (modify_enemy this (set_enemy_alive false) w) e with
            | Some t => Player_addScore t 10 (modify_enemy this (set_enemy_alive false) w)
            | None => modify_enemy this (set_enemy_alive false) w
            end)
    by (case_match; [by apply evolves_Player_addScore | done]).
  destruct (enemy_game e); [by apply evolves_Game_remove | done].
Qed.

Lemma evolves_call_takeDamage (r : Ref) (amount : R) (w0 w : World) :
  evolves w0 w → evolves w0 (call_takeDamage r amount w).
Proof.
  intros Hw. unfold call_takeDamage. repeat case_match; try done.
  - by apply evolves_Player_takeDamage.
  - unfold Enemy_takeDamage. apply evolves_Enemy_die. by apply evolves_emit.
Qed.

Lemma evolves_Enemy_attack (this : Ref) (w0 w : World) :
  evolves w0 w → evolves w0 (Enemy_attack this w).
Proof.
  intros Hw. unfold Enemy_attack.
  assert (Hemit : evolves w0 (emit (CallAttack this) w)) by (by apply evolves_emit).
  destruct (get_enemy (emit _ w) this) as [e|]; [|done].
  destruct (target_with has_takeDamage _ e) as [t|]; [|done].
  assert (Hflash : evolves w0 (emit (CallFlash this)
                     (call_takeDamage t (enemy_damage e) (emit (CallAttack this) w))))
    by (apply evolves_emit; [done | by apply evolves_call_takeDamage]).
  destruct (get_enemy (emit (CallFlash this) _) this) as [e'|] eqn:He'; [|done].
  eapply evolves_frame; [reflexivity | reflexivity |].
  by apply (evolves_set_enemy this e').
Qed.

Lemma evolves_Enemy_tryAttack (this : Ref) (w0 w : World) :
  evolves w0 w → evolves w0 (Enemy_tryAttack this w).
Proof.
  intros Hw. unfold Enemy_tryAttack. repeat case_match; try done.
  apply evolves_modify_enemy; [done | by apply evolves_Enemy_attack].
Qed.

Lemma evolves_Enemy_chaseTarget (this : Ref) (delta : R) (w0 w : World) :
  evolves w0 w → evolves w0 (Enemy_chaseTarget this delta w).
Proof.
  intros Hw. unfold Enemy_chaseTarget.
  destruct (get_enemy w this) as [e|] eqn:He; [|done].
  destruct (Enemy_targetPosition w e) as [tp|]; [|done].
  set (e' := if decide (_ > enemy_attackRange e) then _ else e).
  assert (Htarget : enemy_target e' = enemy_target e) by (subst e'; by case_decide).
  assert (Hmoved : evolves w0 (set_obj this (OEnemy e') w))
    by (by apply (evolves_set_enemy this e)).
  destruct (Enemy_targetPosition _ e') as [tp'|]; [|done].
  apply (evolves_set_enemy this e'); [apply get_enemy_set_obj | done | done].
Qed.

Lemma evolves_Enemy_update (this : Ref) (delta : R) (w0 w : World) :
  evolves w0 w → evolves w0 (Enemy_update this delta w).
Proof.
  intros Hw. unfold Enemy_update.
  destruct (get_enemy w this) as [e|]; [|done].
  destruct (enemy_alive e); [|done].
  apply evolves_modify_enemy; [done|].
  assert (Htick : evolves w0 (modify_enemy this (Enemy_tick delta) w))
    by (by apply evolves_modify_enemy).
  case_match.
  - by apply evolves_Enemy_tryAttack, evolves_Enemy_chaseTarget.
  - unfold Enemy_wander. by apply evolves_modify_enemy.
Qed.

Lemma evolves_Player_update (this : Ref) (delta : R) (w0 w : World) :
  evolves w0 w → evolves w0 (Player_update this delta w).
Proof.
  intros Hw. unfold Player_update.
  destruct (get_player w this) as [p|] eqn:Hp; [|done].
  set (stepped := match (if player_input p then _ else None) with
                  | Some i => _ | None => (p, w) end).
  assert (Hstepped : evolves w0 (snd stepped) ∧ get_player (snd stepped) this = Some p).
  { subst stepped. case_match; [|done].
    destruct (Player_handleInput delta _ p) as [p1 i1]; simpl.
    split; [by apply (evolves_frame w0 w) | done]. }
  destruct stepped as [p1 w1], Hstepped as [Hw1 Hp1]; simpl in *.
  apply (evolves_set_player this (Player_applyPhysics delta p1)).
  { rewrite Player_updateCamera_get. apply get_player_set_obj. }
  apply evolves_Player_updateCamera. by apply (evolves_set_player this p).
Qed.

Lemma evolves_run_actions (body : list Action) (w0 w : World) :
  evolves w0 w → evolves w0 (run_actions body w).
Proof.
  revert w. induction body as [|a body IH]; intros w Hw; [done|].
  simpl. apply IH. destruct a; simpl.
  - by apply evolves_Game_remove.
  - by apply evolves_call_takeDamage.
Qed.

Lemma evolves_update_method (entity : Ref) (delta : R) (w0 w w' : World)
    (update : R → World → World) :
  update_method w' entity = Some update →
  evolves w0 w → evolves w0 (update delta w).
Proof.
  unfold update_method. intros Hupdate Hw.
  repeat case_match; simplify_eq/=.
  - done.
  - by apply evolves_Player_update.
  - by apply evolves_Enemy_update.
  - destruct (plain_update _); simplify_eq/=. by apply evolves_run_actions.
Qed.

Lemma evolves_init_method (entity : Ref) (w0 w w' : World) (init : World → World) :
  init_method w' entity = Some init →
  evolves w0 w → evolves w0 (init w).
Proof.
  unfold init_method. intros Hinit Hw.
  repeat case_match; simplify_eq/=.
  - unfold Ground_init.
    destruct (world_heap w !! entity) as [[gr| | |]|] eqn:Hg; try done.
    apply evolves_set_obj; [unfold shape_at; by rewrite Hg | done].
  - unfold Player_init. destruct (get_player w entity) as [pl|] eqn:Hp; [|done].
    apply evolves_Player_updateUI, evolves_Player_updateCamera.
    by apply (evolves_set_player entity pl).
  - unfold Enemy_init. by apply evolves_modify_enemy.
Qed.

Lemma evolves_Game_add (entity : Ref) (w0 w : World) :
  evolves w0 w → evolves w0 (Game_add entity w).
Proof.
  intros Hw. unfold Game_add.
  set (w1 := set_game _ w).
  assert (Hw1 : evolves w0 w1) by (by apply (evolves_frame w0 w)).
  destruct (init_method w1 entity) as [init|] eqn:Hinit; [|done].
  by apply (evolves_init_method entity w0 w1 w1).
Qed.

(** ** Membership of the world collection *)

Lemma indexOf_None (r : Ref) (l : list Ref) : indexOf r l = None ↔ r ∉ l.
Proof.
  unfold indexOf. rewrite fmap_None, list_find_None, Forall_forall.
  split.
  - intros Hall Hin. by apply (Hall r).
  - intros Hnotin x Hx Heq. by subst.
Qed.

Lemma indexOf_Some (r : Ref) (l : list Ref) (i : nat) :
  indexOf r l = Some i → l !! i = Some r.
Proof.
  unfold indexOf. intros ([i' x] & Hfind & ->)%fmap_Some.
  apply list_find_Some in Hfind as (Hl & -> & _). done.
Qed.

Lemma indexOf_app_fresh (r : Ref) (l : list Ref) :
  r ∉ l → indexOf r (l ++ [r]) = Some (length l).
Proof.
  intros Hnotin. unfold indexOf.
  rewrite list_find_app_r
    by (apply list_find_None, Forall_forall; intros x Hx Heq; by subst).
  simpl. rewrite decide_True by done. simpl. f_equal; lia.
Qed.

(** Deleting the first occurrence from a list without duplicates removes
    the element and nothing else. *)
Lemma elem_of_delete_first (r x : Ref) (l : list Ref) (i : nat) :
  NoDup l → indexOf r l = Some i → x ∈ delete i l ↔ x ∈ l ∧ x ≠ r.
Proof.
  intros Hnd Hi%indexOf_Some.
  pose proof (delete_Permutation l i r Hi) as Hperm.
  rewrite Hperm in Hnd. apply NoDup_cons in Hnd as [Hnotin _].
  rewrite (Hperm : l ≡ₚ r :: delete i l) at 2. rewrite elem_of_cons.
  split.
  - intros Hx. split; [by right | by intros ->].
  - by intros [[->|Hx] Hne].
Qed.

Lemma scene_remove_elem_of (r x : Ref) (l : list Ref) :
  NoDup l → x ∈ scene_remove r l ↔ x ∈ l ∧ x ≠ r.
Proof.
  intros Hnd. unfold scene_remove.
  destruct (indexOf r l) as [i|] eqn:Hi.
  - by apply elem_of_delete_first.
  - apply indexOf_None in Hi. split; [|by intros []].
    intros Hx. split; [done | by intros ->].
Qed.

Lemma scene_remove_NoDup (r : Ref) (l : list Ref) :
  NoDup l → NoDup (scene_remove r l).
Proof.
  intros Hnd. unfold scene_remove. destruct (indexOf r l); [|done].
  eapply sublist_NoDup; [done | apply sublist_delete].
Qed.

(** X12. [remove] of an entity that is not in the collection changes
    nothing in the driver: the collection and the scene are as they were,
    also when the entity's mesh is in the scene. *)
Theorem Game_remove_absent (entity : Ref) (w : World) :
  entity ∉ game_entities (world_game w) →
  world_game (Game_remove entity w) = world_game w
  ∧ world_heap (Game_remove entity w) = world_heap w.
Proof.
  intros Habsent%indexOf_None. split; [|apply Game_remove_heap].
  unfold Game_remove; simpl. by rewrite Habsent.
Qed.

Lemma Game_remove_absent_witness :
  world_game (Game_remove 0%nat fresh_ground_world) = world_game fresh_ground_world.
Proof.
  apply (Game_remove_absent 0%nat fresh_ground_world). apply not_elem_of_nil.
Defined.

Lemma shape_has_mesh_spec (w : World) (r : Ref) :
  is_Some (mesh_of w r) ↔ shape_has_mesh <$> shape_at w r = Some true.
Proof.
  unfold mesh_of, shape_at.
  destruct (world_heap w !! r) as [[g|p|e|o]|]; simpl.
  - split; [done | by eexists].
  - split; [done | by eexists].
  - split; [done | by eexists].
  - split.
    + intros Hsome. by rewrite bool_decide_eq_true_2.
    + by intros [= Hsome%bool_decide_eq_true].
  - split; [by intros [? ?] | done].
Qed.

Lemma same_shapes_mesh (w w' : World) (r : Ref) :
  same_shapes w w' → is_Some (mesh_of w' r) ↔ is_Some (mesh_of w r).
Proof. intros Hs. by rewrite !shape_has_mesh_spec, Hs. Qed.

Lemma Player_updateCamera_scene (this : Ref) (w : World) :
  game_scene (world_game (Player_updateCamera this w)) = game_scene (world_game w).
Proof. unfold Player_updateCamera. repeat case_match; done. Qed.

Lemma init_method_scene (entity : Ref) (w w' : World) (init : World → World) :
  init_method w entity = Some init →
  game_scene (world_game (init w')) = game_scene (world_game w').
Proof.
  unfold init_method. intros Hinit.
  repeat case_match; simplify_eq.
  - unfold Ground_init. repeat case_match; done.
  - unfold Player_init. destruct (get_player w' entity); [|done].
    by rewrite Player_updateUI_game, Player_updateCamera_scene.
  - unfold Enemy_init, modify_enemy. repeat case_match; done.
Qed.

Lemma Game_add_scene (entity : Ref) (w : World) :
  game_scene (world_game (Game_add entity w))
  = match mesh_of w entity with
    | Some _ => scene_add entity (game_scene (world_game w))
    | None => game_scene (world_game w)
    end.
Proof.
  unfold Game_add.
  destruct (init_method _ entity) as [init|] eqn:Hinit.
  - rewrite (init_method_scene _ _ _ _ Hinit). by destruct (mesh_of w entity).
  - by destruct (mesh_of w entity).
Qed.

Lemma Game_remove_scene (entity : Ref) (w : World) :
  game_scene (world_game (Game_remove entity w))
  = match indexOf entity (game_entities (world_game w)), mesh_of w entity with
    | Some _, Some _ => scene_remove entity (game_scene (world_game w))
    | _, _ => game_scene (world_game w)
    end.
Proof.
  unfold Game_remove; simpl.
  destruct (indexOf entity _); [|done].
  change (mesh_of (emit (CallRemove entity) w) entity) with (mesh_of w entity).
  by destruct (mesh_of w entity).
Qed.

Lemma run_op_in_step (op : GameOp) (w : World) :
  in_step w →
  match op with
  | OpAdd entity => entity ∉ game_entities (world_game w)
  | OpRemove _ => True
  end →
  in_step (run_op op w).
Proof.
  intros (Hents & Hscene & Hiff) Hfresh.
  assert (Hmesh : ∀ r, is_Some (mesh_of (run_op op w) r) ↔ is_Some (mesh_of w r)).
  { intros r. apply same_shapes_mesh.
    destruct op; simpl; [apply evolves_Game_add | apply evolves_Game_remove];
      apply evolves_refl. }
  split; [by apply run_op_NoDup|].
  destruct op as [entity|entity]; simpl in *.
  - assert (Hnotscene : entity ∉ game_scene (world_game w))
      by (intros Hin; by apply Hiff in Hin as [? _]).
    rewrite Game_add_scene, Game_add_entities.
    destruct (mesh_of w entity) as [pos|] eqn:Hpos.
    + unfold scene_add, scene_remove.
      rewrite (proj2 (indexOf_None _ _) Hnotscene). split.
      * apply NoDup_app. split_and!; [done | | apply NoDup_singleton].
        by intros x Hx ->%list_elem_of_singleton.
      * intros r. rewrite !elem_of_app, !list_elem_of_singleton, Hmesh, Hiff.
        split; [|tauto].
        intros [?| ->]; [tauto|]. split; [by right | by rewrite Hpos].
    + split; [done|]. intros r.
      rewrite elem_of_app, list_elem_of_singleton, Hmesh, Hiff.
      split; [tauto|]. intros [[?| ->] Hsome]; [done|].
      rewrite Hpos in Hsome. by destruct Hsome.
  - rewrite Game_remove_scene, Game_remove_entities.
    destruct (indexOf entity (game_entities (world_game w))) as [i|] eqn:Hi.
    + assert (Hdel : ∀ r, r ∈ delete i (game_entities (world_game w))
                          ↔ r ∈ game_entities (world_game w) ∧ r ≠ entity)
        by (intros r; by apply elem_of_delete_first).
      destruct (mesh_of w entity) as [pos|] eqn:Hpos.
      * split; [by apply scene_remove_NoDup|]. intros r.
        rewrite scene_remove_elem_of, Hmesh, Hdel, Hiff by done. tauto.
      * split; [done|]. intros r. rewrite Hmesh, Hdel, Hiff.
        split; [|tauto]. intros [Hin Hsome]. split_and!; try done.
        intros ->. rewrite Hpos in Hsome. by destruct Hsome.
    + split; [done|]. intros r. by rewrite Hmesh, Hiff.
Qed.

(** X13. The collection and the scene stay in step.  Starting from a world
    in which no entity and no mesh occurs twice and the scene holds the
    meshes of the entities that have one, a sequence of [add] and [remove]
    calls in which no [add] is given an entity the collection already holds
    leaves such a world: after every call an entity's mesh is in the scene
    exactly when the entity is in the collection and has a mesh. *)
Theorem run_ops_in_step (ops : list GameOp) (w : World) :
  in_step w → fresh_adds ops w → in_step (run_ops ops w).
Proof.
  revert w. induction ops as [|op ops IH]; intros w Hstep Hfresh; [done|].
  destruct Hfresh as [Hop Hops]. simpl.
  apply IH; [by apply run_op_in_step | done].
Qed.

Lemma World_new_in_step (heap : gmap Ref Obj) (now : R) : in_step (World_new heap now).
Proof.
  split_and!; try apply NoDup_nil_2.
  intros r. simpl. split; [by intros ?%elem_of_nil | by intros [?%elem_of_nil _]].
Qed.

Lemma run_ops_in_step_witness :
  in_step (run_ops [OpAdd 0%nat; OpRemove 0%nat; OpAdd 0%nat] fresh_ground_world).
Proof.
  apply run_ops_in_step.
  - apply World_new_in_step.
  - simpl. split_and!; try done.
    + apply not_elem_of_nil.
    + rewrite Game_remove_entities, Game_add_entities. apply not_elem_of_nil.
Defined.

(** X14. [add] followed by [remove] of the same entity restores the
    collection and the scene, for an entity that was in neither. *)
Theorem Game_add_remove (entity : Ref) (w : World) :
  entity ∉ game_entities (world_game w) →
  entity ∉ game_scene (world_game w) →
  game_entities (world_game (Game_remove entity (Game_add entity w)))
  = game_entities (world_game w)
  ∧ game_scene (world_game (Game_remove entity (Game_add entity w)))
    = game_scene (world_game w).
Proof.
  intros Hents Hscene.
  rewrite Game_remove_entities, Game_remove_scene, Game_add_entities, Game_add_scene.
  rewrite (indexOf_app_fresh _ _ Hents).
  assert (Hdel : ∀ l : list Ref, delete (length l) (l ++ [entity]) = l)
    by (intros l; by rewrite delete_middle, app_nil_r).
  split; [apply Hdel|].
  assert (Hmesh : is_Some (mesh_of (Game_add entity w) entity) ↔ is_Some (mesh_of w entity))
    by (apply same_shapes_mesh, evolves_Game_add, evolves_refl).
  destruct (mesh_of w entity) as [pos|] eqn:Hpos.
  - destruct (mesh_of (Game_add entity w) entity) as [pos'|] eqn:Hpos'.
    + unfold scene_add, scene_remove at 2.
      rewrite (proj2 (indexOf_None _ _) Hscene).
      unfold scene_remove. rewrite (indexOf_app_fresh _ _ Hscene). apply Hdel.
    + destruct (proj2 Hmesh) as [? ?]; [by eexists | done].
  - destruct (mesh_of (Game_add entity w) entity) as [pos'|] eqn:Hpos'; [|done].
    destruct (proj1 Hmesh) as [? ?]; [by eexists | done].
Qed.

Lemma Game_add_remove_witness :
  game_entities (world_game (Game_remove 0%nat (Game_add 0%nat fresh_ground_world))) = []
  ∧ game_scene (world_game (Game_remove 0%nat (Game_add 0%nat fresh_ground_world))) = [].
Proof.
  apply (Game_add_remove 0%nat fresh_ground_world); apply not_elem_of_nil.
Defined.

(** ** The update pass of a calm world *)

Lemma calm_same_shapes (w w' : World) : same_shapes w w' → calm w → calm w'.
Proof.
  intros Hs Hcalm r. specialize (Hcalm r). rewrite Hs.
  destruct (shape_at w r) as [[| |[t|]|o]|]; try done.
  intros target. rewrite Hs. apply Hcalm.
Qed.

Lemma modify_enemy_game (r : Ref) (f : Enemy → Enemy) (w : World) :
  world_game (modify_enemy r f w) = world_game w.
Proof. unfold modify_enemy. by case_match. Qed.

Lemma Enemy_chaseTarget_game (this : Ref) (delta : R) (w : World) :
  world_game (Enemy_chaseTarget this delta w) = world_game w.
Proof. unfold Enemy_chaseTarget. by repeat case_match. Qed.

Lemma Player_takeDamage_game (this : Ref) (amount : R) (w : World) :
  world_game (Player_takeDamage this amount w) = world_game w.
Proof.
  unfold Player_takeDamage. case_match; [|done]. by rewrite Player_updateUI_game.
Qed.

Lemma call_takeDamage_game (t : Ref) (amount : R) (w : World) :
  (∀ target, shape_at w t ≠ Some (SEnemy target)) →
  world_game (call_takeDamage t amount w) = world_game w.
Proof.
  intros Hnot. unfold call_takeDamage.
  destruct (world_heap w !! t) as [[g|p|e|o]|] eqn:Ht; try done.
  - apply Player_takeDamage_game.
  - destruct (Hnot (enemy_target e)). unfold shape_at. by rewrite Ht.
Qed.

Lemma target_with_target (cap : Obj → bool) (w : World) (e : Enemy) (t : Ref) :
  target_with cap w e = Some t → enemy_target e = Some t.
Proof.
  unfold target_with. destruct (enemy_target e) as [t'|]; [simpl|done].
  destruct (world_heap w !! t') as [o|]; [simpl|done].
  destruct (cap o); [congruence | done].
Qed.

Lemma Enemy_attack_game (this : Ref) (w : World) :
  calm w → world_game (Enemy_attack this w) = world_game w.
Proof.
  intros Hcalm. unfold Enemy_attack.
  change (get_enemy (emit (CallAttack this) w) this) with (get_enemy w this).
  destruct (get_enemy w this) as [e|] eqn:He; [|done].
  destruct (target_with has_takeDamage _ e) as [t|] eqn:Ht; [|done].
  apply target_with_target in Ht.
  assert (Hgame : world_game (call_takeDamage t (enemy_damage e) (emit (CallAttack this) w))
                  = world_game w).
  { rewrite call_takeDamage_game; [done|].
    specialize (Hcalm this). rewrite (shape_at_enemy w this e He), Ht in Hcalm.
    exact Hcalm. }
  by case_match.
Qed.

Lemma Enemy_tryAttack_game (this : Ref) (w : World) :
  calm w → world_game (Enemy_tryAttack this w) = world_game w.
Proof.
  intros Hcalm. unfold Enemy_tryAttack. repeat case_match; try done.
  by rewrite modify_enemy_game, Enemy_attack_game.
Qed.

Lemma Enemy_update_game (this : Ref) (delta : R) (w : World) :
  calm w → world_game (Enemy_update this delta w) = world_game w.
Proof.
  intros Hcalm. unfold Enemy_update.
  destruct (get_enemy w this) as [e|]; [|done].
  destruct (enemy_alive e); [|done].
  rewrite modify_enemy_game. case_match.
  - rewrite Enemy_tryAttack_game, Enemy_chaseTarget_game, modify_enemy_game; [done|].
    eapply calm_same_shapes; [|exact Hcalm].
    apply evolves_Enemy_chaseTarget, evolves_modify_enemy; [done | apply evolves_refl].
  - unfold Enemy_wander. by rewrite !modify_enemy_game.
Qed.

Lemma same_driver_refl (w : World) : same_driver w w.
Proof. by repeat split. Qed.

Lemma same_driver_trans (w1 w2 w3 : World) :
  same_driver w1 w2 → same_driver w2 w3 → same_driver w1 w3.
Proof.
  intros (He1 & Hs1 & Hc1 & Hr1) (He2 & Hs2 & Hc2 & Hr2).
  repeat split; congruence.
Qed.

Lemma same_driver_game (w w' : World) :
  world_game w' = world_game w → same_driver w w'.
Proof. intros Hg. unfold same_driver. by rewrite Hg. Qed.

Lemma Player_update_driver (this : Ref) (delta : R) (w : World) :
  same_driver w (Player_update this delta w).
Proof.
  assert (Hcam : ∀ w', same_driver w' (Player_updateCamera this w'))
    by (intros w'; unfold Player_updateCamera; repeat case_match; by repeat split).
  unfold Player_update. destruct (get_player w this) as [p|]; [|by repeat split].
  destruct (if player_input p then game_input (world_game w) else None) as [i|].
  - destruct (Player_handleInput delta i p) as [p1 i1].
    apply (same_driver_trans _ (set_obj this (OPlayer (Player_applyPhysics delta p1))
                                  (set_game (set_input (Some i1) (world_game w)) w)));
      [by repeat split|].
    apply (same_driver_trans _ _ _ (Hcam _)). by repeat split.
  - apply (same_driver_trans _ (set_obj this (OPlayer (Player_applyPhysics delta p)) w));
      [by repeat split|].
    apply (same_driver_trans _ _ _ (Hcam _)). by repeat split.
Qed.

Lemma update_entity_driver (delta : R) (entity : Ref) (w : World) :
  calm w → same_driver w (update_entity delta entity w).
Proof.
  intros Hcalm. unfold update_entity, update_method.
  destruct (world_heap w !! entity) as [[g|p|e|o]|] eqn:Hobj.
  - by repeat split.
  - apply (Player_update_driver entity delta (emit (CallUpdate entity) w)).
  - apply same_driver_game. by rewrite Enemy_update_game.
  - specialize (Hcalm entity). unfold shape_at in Hcalm. rewrite Hobj in Hcalm.
    simpl in Hcalm. destruct (plain_update o) as [body|]; [simpl|by repeat split].
    rewrite (Hcalm body eq_refl). by repeat split.
  - by repeat split.
Qed.

Lemma updatable_method (w : World) (entity : Ref) :
  updatable w entity = bool_decide (is_Some (update_method w entity)).
Proof.
  unfold updatable, shape_at, update_method.
  destruct (world_heap w !! entity) as [[g|p|e|pl]|]; simpl; try done.
  by destruct (plain_update pl).
Qed.

Lemma count_inner (r : Ref) (evs : list Event) :
  Forall inner_event evs → count (is_update_of r) evs = 0%nat.
Proof.
  induction 1 as [|ev evs Hev _ IH]; [done|].
  change (ev :: evs) with ([ev] ++ evs). rewrite count_app, IH, count_singleton.
  by destruct ev.
Qed.

Lemma evolves_count (r : Ref) (w w' : World) :
  evolves w w' →
  count (is_update_of r) (world_trace w') = count (is_update_of r) (world_trace w).
Proof.
  intros [_ (evs & -> & Hinner)]. rewrite count_app, (count_inner r evs Hinner). lia.
Qed.

(** One step of the pass: the shapes stay, and the entity is updated once
    if it has the method. *)
Lemma update_entity_step (delta : R) (entity r : Ref) (w : World) :
  same_shapes w (update_entity delta entity w)
  ∧ count (is_update_of r) (world_trace (update_entity delta entity w))
    = (count (is_update_of r) (world_trace w)
       + if bool_decide (entity = r) && updatable w entity then 1 else 0)%nat.
Proof.
  rewrite updatable_method. unfold update_entity.
  destruct (update_method w entity) as [update|] eqn:Hupdate.
  - pose proof (evolves_update_method entity delta _ _ w update Hupdate
                  (evolves_refl (emit (CallUpdate entity) w))) as Hev.
    split; [apply Hev|].
    rewrite (evolves_count r _ _ Hev); simpl.
    rewrite count_app, count_singleton; simpl.
    by rewrite andb_true_r.
  - split; [done|]. simpl. rewrite andb_false_r. lia.
Qed.

Lemma updatable_same_shapes (w w' : World) (r : Ref) :
  same_shapes w w' → updatable w' r = updatable w r.
Proof. intros Hs. unfold updatable. by rewrite Hs. Qed.

Lemma occurrences_cons (r a : Ref) (l : list Ref) :
  occurrences r (a :: l) = ((if bool_decide (a = r) then 1 else 0) + occurrences r l)%nat.
Proof.
  unfold occurrences. case_bool_decide.
  - by rewrite filter_cons_True.
  - by rewrite filter_cons_False.
Qed.

(** The pass as a fold over a list of entities, in a calm world. *)
Lemma update_fold_calm (delta : R) (l : list Ref) (w : World) :
  calm w →
  let w' := foldl (λ w a, update_entity delta a w) w l in
  calm w'
  ∧ same_shapes w w'
  ∧ same_driver w w'
  ∧ ∀ r, count (is_update_of r) (world_trace w')
         = (count (is_update_of r) (world_trace w)
            + if updatable w r then occurrences r l else 0)%nat.
Proof.
  revert w. induction l as [|a l IH]; intros w Hcalm; simpl.
  - split; [done|]. split; [done|]. split; [apply same_driver_refl|].
    intros r. destruct (updatable w r); unfold occurrences; simpl; lia.
  - pose proof (update_entity_step delta a) as Hstep.
    assert (Hshape : same_shapes w (update_entity delta a w)) by apply (Hstep a w).
    pose proof (update_entity_driver delta a w Hcalm) as Hdriver.
    destruct (IH _ (calm_same_shapes _ _ Hshape Hcalm)) as (Hc & Hs & Hd & Hcount).
    split; [done|]. split; [|split].
    + intros r. by rewrite Hs, Hshape.
    + by apply (same_driver_trans _ _ _ Hdriver).
    + intros r. rewrite Hcount, (proj2 (Hstep r w)), (updatable_same_shapes _ _ _ Hshape).
      rewrite occurrences_cons. case_bool_decide as Har; simpl.
      * subst. destruct (updatable w r); lia.
      * destruct (updatable w r); lia.
Qed.

(** [forEach] over an array that the calls leave as it is visits every
    element once, in order. *)
Lemma forEach_static {A} (Inv : World → Prop) (arr : World → list A)
    (f : A → World → World) (l : list A) (w : World) :
  (∀ a w, Inv w → arr w = l → Inv (f a w) ∧ arr (f a w) = l) →
  Inv w → arr w = l →
  forEach arr f w = foldl (λ w a, f a w) w l.
Proof.
  intros Hstep Hinv Harr. unfold forEach. rewrite Harr.
  assert (Hgen : ∀ n k w, Inv w → arr w = l → (k + n = length l)%nat →
            forEach_from arr f k n w = foldl (λ w a, f a w) w (drop k l)).
  { clear w Hinv Harr. induction n as [|n IH]; intros k w Hinv Harr Hlen; simpl.
    - rewrite drop_ge by lia. done.
    - destruct (lookup_lt_is_Some_2 l k) as [a Ha]; [lia|].
      rewrite Harr, Ha, (drop_S l a k Ha); simpl.
      destruct (Hstep a w Hinv Harr) as [Hinv' Harr'].
      apply IH; [done | done | lia]. }
  by rewrite (Hgen (length l) 0%nat w Hinv Harr), drop_0.
Qed.

Lemma forEach_from_inv {A} (Inv : World → Prop) (arr : World → list A)
    (f : A → World → World) (n k : nat) (w : World) :
  (∀ a w, Inv w → a ∈ arr w → Inv (f a w)) → Inv w → Inv (forEach_from arr f k n w).
Proof.
  intros Hstep. revert k w. induction n as [|n IH]; intros k w Hinv; [done|].
  simpl. apply IH. destruct (arr w !! k) as [a|] eqn:Ha; [|done].
  apply Hstep; [done|]. by apply list_elem_of_lookup_2 in Ha.
Qed.

(** What a tick does in a calm world. *)
Lemma animate_calm_spec (delta : R) (w : World) :
  calm w →
  game_isRunning (world_game w) = true →
  let w' := Game_animate delta w in
  calm w'
  ∧ same_shapes w w'
  ∧ (∀ r, count (is_update_of r) (world_trace w')
          = (count (is_update_of r) (world_trace w)
             + if updatable w r then occurrences r (game_entities (world_game w)) else 0)%nat)
  ∧ (Forall (λ body, body = []) (game_updateCallbacks (world_game w)) →
     same_driver w w').
Proof.
  intros Hcalm Hrun; simpl. unfold Game_animate. rewrite Hrun.
  set (l := game_entities (world_game w)).
  rewrite (forEach_static calm (λ w, game_entities (world_game w))
             (update_entity delta) l w); [|..|done|done].
  2:{ intros a w1 Hc1 Hl1. split.
      - eapply calm_same_shapes; [|exact Hc1]. apply (update_entity_step delta a a w1).
      - by rewrite (proj1 (update_entity_driver delta a w1 Hc1)). }
  destruct (update_fold_calm delta l w Hcalm) as (Hc & Hs & Hd & Hcount).
  set (w1 := foldl _ w l) in *.
  assert (Hcb : evolves w1 (forEach (λ w, game_updateCallbacks (world_game w)) run_actions w1)).
  { unfold forEach. apply (forEach_from_inv (evolves w1)); [|apply evolves_refl].
    intros body w2 Hw2 _. by apply evolves_run_actions. }
  split; [|split; [|split]].
  - eapply calm_same_shapes; [apply Hcb | exact Hc].
  - intros r. by rewrite (proj1 Hcb), Hs.
  - intros r. by rewrite (evolves_count r _ _ Hcb), Hcount.
  - intros Hempty. destruct Hd as (He & Hsc & Hcbs & Hr). rewrite <- Hcbs in Hempty.
    assert (Hsame : forEach (λ w, game_updateCallbacks (world_game w)) run_actions w1 = w1).
    { unfold forEach. apply (forEach_from_inv (λ w2, w2 = w1)); [|done].
      intros body w2 -> Hin. by rewrite (proj1 (Forall_forall _ _) Hempty body Hin). }
    rewrite Hsame. by repeat split.
Qed.

(** X15. In a calm world a tick updates every entity once.  The driver is
    running, no enemy targets an enemy and no caller-supplied update has a
    body (the world [main.js] builds is such a world): after [animate] the
    world is still calm, every reference that has an [update] method has
    received one update call per occurrence in the collection, and, when
    the registered callbacks have empty bodies, the collection, the scene,
    the callbacks and the running flag are those before the tick.  No
    object has changed class and no enemy its target. *)
Theorem Game_animate_calm (delta : R) (w : World) :
  calm w →
  game_isRunning (world_game w) = true →
  let w' := Game_animate delta w in
  calm w'
  ∧ same_shapes w w'
  ∧ (∀ r, count (is_update_of r) (world_trace w')
          = (count (is_update_of r) (world_trace w)
             + if updatable w r then occurrences r (game_entities (world_game w)) else 0)%nat)
  ∧ (Forall (λ body, body = []) (game_updateCallbacks (world_game w)) →
     same_driver w w').
Proof. exact (animate_calm_spec delta w). Qed.

(** *** The world of [main.js] *)

Lemma evolves_run_ops (ops : list GameOp) (w0 w : World) :
  evolves w0 w → evolves w0 (run_ops ops w).
Proof.
  revert w. induction ops as [|op ops IH]; intros w Hw; [done|].
  simpl. apply IH. destruct op; simpl;
    [by apply evolves_Game_add | by apply evolves_Game_remove].
Qed.

Lemma Game_add_quiet (entity : Ref) (w : World) :
  world_trace (Game_add entity w) = world_trace w
  ∧ game_updateCallbacks (world_game (Game_add entity w))
    = game_updateCallbacks (world_game w)
  ∧ game_isRunning (world_game (Game_add entity w)) = game_isRunning (world_game w).
Proof.
  unfold Game_add. set (w1 := set_game _ w).
  assert (Hw1 : world_trace w1 = world_trace w
                ∧ game_updateCallbacks (world_game w1) = game_updateCallbacks (world_game w)
                ∧ game_isRunning (world_game w1) = game_isRunning (world_game w))
    by (subst w1; simpl; by destruct (mesh_of w entity)).
  destruct Hw1 as (<- & <- & <-). clearbody w1.
  unfold init_method. destruct (world_heap w1 !! entity) as [[g|p|e|o]|]; try done.
  - unfold Ground_init. by repeat case_match.
  - unfold Player_init. destruct (get_player w1 entity); [|done].
    unfold Player_updateUI, Player_updateCamera. by repeat case_match.
  - unfold Enemy_init, modify_enemy. by repeat case_match.
Qed.

Lemma run_adds_quiet (entities : list Ref) (w : World) :
  let w' := run_ops (OpAdd <$> entities) w in
  game_entities (world_game w') = game_entities (world_game w) ++ entities
  ∧ world_trace w' = world_trace w
  ∧ game_updateCallbacks (world_game w') = game_updateCallbacks (world_game w)
  ∧ game_isRunning (world_game w') = game_isRunning (world_game w).
Proof.
  revert w. induction entities as [|a l IH]; intros w.
  - simpl. by rewrite app_nil_r.
  - change (run_ops (OpAdd <$> a :: l) w) with (run_ops (OpAdd <$> l) (Game_add a w)).
    cbv zeta. destruct (IH (Game_add a w)) as (He & Ht & Hc & Hr).
    destruct (Game_add_quiet a w) as (Ht' & Hc' & Hr').
    rewrite He, Ht, Hc, Hr, Game_add_entities, Ht', Hc', Hr', <- app_assoc. done.
Qed.

(** A driver that is given an input source, then the entities of a list,
    then one callback with an empty body. *)
Lemma setup_facts (heap : gmap Ref Obj) (now : R) (l : list Ref) :
  let w0 := World_new heap now in
  let w := Game_onUpdate []
             (run_ops (OpAdd <$> l)
                (set_game (set_input (Some Input.new) (world_game w0)) w0)) in
  game_entities (world_game w) = l
  ∧ game_updateCallbacks (world_game w) = [[]]
  ∧ world_trace w = []
  ∧ game_isRunning (world_game w) = false
  ∧ same_shapes w0 w.
Proof.
  intros w0 w. subst w.
  set (w1 := set_game (set_input (Some Input.new) (world_game w0)) w0).
  destruct (run_adds_quiet l w1) as (He & Ht & Hc & Hr).
  assert (Hev : evolves w0 (run_ops (OpAdd <$> l) w1)).
  { apply evolves_run_ops. apply (evolves_frame _ w0); [done | done | apply evolves_refl]. }
  unfold Game_onUpdate.
  cbn [world_game set_game game_entities game_updateCallbacks set_updateCallbacks
       world_trace game_isRunning].
  rewrite He, Ht, Hc, Hr. split_and!; try done.
  intros r. apply (proj1 Hev r).
Qed.

Lemma main_setup_eq (rnd : nat → R) (now : R) :
  main_setup rnd now
  = Game_onUpdate []
      (run_ops (OpAdd <$> [0; 1; 2; 3; 4; 5; 6]%nat)
         (set_game (set_input (Some Input.new) (world_game (World_new (main_heap rnd) now)))
                   (World_new (main_heap rnd) now))).
Proof. reflexivity. Qed.

Lemma main_setup_facts (rnd : nat → R) (now : R) :
  game_entities (world_game (main_setup rnd now)) = [0; 1; 2; 3; 4; 5; 6]%nat
  ∧ game_updateCallbacks (world_game (main_setup rnd now)) = [[]]
  ∧ world_trace (main_setup rnd now) = []
  ∧ game_isRunning (world_game (main_setup rnd now)) = false
  ∧ same_shapes (World_new (main_heap rnd) now) (main_setup rnd now).
Proof.
  rewrite main_setup_eq.
  exact (setup_facts (main_heap rnd) now [0; 1; 2; 3; 4; 5; 6]%nat).
Qed.

Lemma main_heap_shapes (rnd : nat → R) (now : R) (r : Ref) :
  shape_at (World_new (main_heap rnd) now) r
  = match r with
    | 0%nat => Some SGround
    | 1%nat => Some SPlayer
    | 2%nat | 3%nat | 4%nat | 5%nat | 6%nat => Some (SEnemy (Some 1%nat))
    | _ => None
    end.
Proof.
  unfold shape_at, World_new, main_heap.
  change (world_heap (mkWorld ?h _ _ _ _ _ _)) with h.
  do 7 (destruct r as [|r];
        [repeat (rewrite lookup_insert_ne by lia);
         by rewrite ?lookup_insert_eq, ?lookup_singleton_eq|]).
  repeat (rewrite lookup_insert_ne by lia). by rewrite lookup_singleton_ne by lia.
Qed.

Lemma main_setup_shape_at (rnd : nat → R) (now : R) (r : Ref) :
  shape_at (main_setup rnd now) r
  = match r with
    | 0%nat => Some SGround
    | 1%nat => Some SPlayer
    | 2%nat | 3%nat | 4%nat | 5%nat | 6%nat => Some (SEnemy (Some 1%nat))
    | _ => None
    end.
Proof.
  destruct (main_setup_facts rnd now) as (_ & _ & _ & _ & Hs).
  rewrite (Hs r). apply main_heap_shapes.
Qed.

Lemma main_setup_calm (rnd : nat → R) (now : R) : calm (main_setup rnd now).
Proof.
  intros r. rewrite main_setup_shape_at.
  do 7 (destruct r as [|r];
        [try exact I; intros target; rewrite main_setup_shape_at; discriminate|]).
  exact I.
Qed.

Lemma started_facts (w : World) :
  let w' := set_game (set_isRunning true (world_game w)) w in
  (calm w → calm w')
  ∧ game_isRunning (world_game w') = true
  ∧ game_updateCallbacks (world_game w') = game_updateCallbacks (world_game w)
  ∧ game_entities (world_game w') = game_entities (world_game w)
  ∧ world_trace w' = world_trace w
  ∧ ∀ r, shape_at w' r = shape_at w r.
Proof. simpl. by split_and!. Qed.

Lemma main_started_facts :
  calm main_started
  ∧ game_isRunning (world_game main_started) = true
  ∧ Forall (λ body, body = []) (game_updateCallbacks (world_game main_started))
  ∧ game_entities (world_game main_started) = [0; 1; 2; 3; 4; 5; 6]%nat
  ∧ world_trace main_started = []
  ∧ updatable main_started 1%nat = true.
Proof.
  destruct (main_setup_facts half_draws 0) as (He & Hc & Ht & _ & _).
  destruct (started_facts (main_setup half_draws 0)) as (Hcalm & Hr & Hcb' & He' & Ht' & Hs').
  unfold main_started. split_and!.
  - apply Hcalm, main_setup_calm.
  - exact Hr.
  - rewrite Hcb', Hc. constructor; [reflexivity | constructor].
  - rewrite He'. exact He.
  - rewrite Ht'. exact Ht.
  - unfold updatable. rewrite Hs', main_setup_shape_at. reflexivity.
Qed.

Lemma Game_start_eq (delta : R) (w : World) :
  Game_start delta w = Game_animate delta (set_game (set_isRunning true (world_game w)) w).
Proof. reflexivity. Qed.

Lemma Game_animate_calm_witness :
  count (is_update_of 1%nat) (world_trace (Game_start (1 / 60) (main_setup half_draws 0)))
  = 1%nat.
Proof.
  destruct main_started_facts as (Hcalm & Hrun & _ & He & Ht & Hup).
  destruct (Game_animate_calm (1 / 60) main_started Hcalm Hrun) as (_ & _ & Hcount & _).
  rewrite Game_start_eq. fold main_started.
  rewrite Hcount, Hup, He, Ht. reflexivity.
Defined.

(** X16. The loop keeps going.  In a calm running world whose callbacks
    have empty bodies, any number of frames leaves the world calm and
    running with the same collection, scene and callbacks, and every
    reference that has an [update] method has received, per occurrence in
    the collection, one update call per frame. *)
Theorem Game_frames_calm (frames : list (R * R)) (w : World) :
  calm w →
  game_isRunning (world_game w) = true →
  Forall (λ body, body = []) (game_updateCallbacks (world_game w)) →
  let w' := Game_frames frames w in
  calm w'
  ∧ same_shapes w w'
  ∧ same_driver w w'
  ∧ ∀ r, count (is_update_of r) (world_trace w')
         = (count (is_update_of r) (world_trace w)
            + if updatable w r
              then length frames * occurrences r (game_entities (world_game w))
              else 0)%nat.
Proof.
  revert w. induction frames as [|frame frames IH]; intros w Hcalm Hrun Hcbs; simpl.
  - split; [done|]. split; [done|]. split; [apply same_driver_refl|].
    intros r. destruct (updatable w r); lia.
  - destruct (animate_calm_spec (snd frame) (set_now (fst frame) w) Hcalm Hrun)
      as (Hc1 & Hs1 & Hcount1 & Hd1).
    specialize (Hd1 Hcbs).
    fold (Game_frame w frame) in Hc1, Hs1, Hcount1, Hd1.
    assert (Hd1' : same_driver w (Game_frame w frame)) by exact Hd1.
    destruct Hd1' as (He1 & Hsc1 & Hcb1 & Hr1).
    destruct (IH (Game_frame w frame) Hc1) as (Hc & Hs & Hd & Hcount).
    { by rewrite Hr1. }
    { by rewrite Hcb1. }
    split; [done|]. split; [|split].
    + intros r. rewrite Hs. apply Hs1.
    + by apply (same_driver_trans _ _ _ Hd1).
    + intros r. rewrite Hcount, Hcount1, He1.
      rewrite (updatable_same_shapes (set_now (fst frame) w) _ r Hs1).
      change (updatable (set_now (fst frame) w) r) with (updatable w r).
      change (world_trace (set_now (fst frame) w)) with (world_trace w).
      change (game_entities (world_game (set_now (fst frame) w)))
        with (game_entities (world_game w)).
      destruct (updatable w r); lia.
Qed.

Lemma Game_frames_calm_witness :
  game_entities (world_game (Game_frames [(16, 1 / 60); (33, 1 / 60)] main_started))
  = [0; 1; 2; 3; 4; 5; 6]%nat
  ∧ count (is_update_of 1%nat)
      (world_trace (Game_frames [(16, 1 / 60); (33, 1 / 60)] main_started)) = 2%nat.
Proof.
  destruct main_started_facts as (Hcalm & Hrun & Hcbs & He & Ht & Hup).
  destruct (Game_frames_calm [(16, 1 / 60); (33, 1 / 60)] main_started Hcalm Hrun Hcbs)
    as (_ & _ & (Hents & _) & Hcount).
  split; [by rewrite Hents|].
  rewrite Hcount, Hup, He, Ht. reflexivity.
Defined.

(** ** Enemy movement *)

(** X17. Where an enemy is placed.  A given position is taken as it is.
    Without one, for a second random draw in [0, 1), the height is 1/2 and
    each horizontal coordinate is at most the drawn distance
    [10 + 20 * rnd2] in absolute value, so strictly between -30 and 30:
    the enemy starts inside the square the player is kept in. *)
Theorem Enemy_new_spawn_ring (options : EnemyOptions) (rnd1 rnd2 : R) :
  0 <= rnd2 < 1 →
  match opt_enemy_position options with
  | Some pos => enemy_position (Enemy_new options rnd1 rnd2) = pos
  | None =>
      let pos := enemy_position (Enemy_new options rnd1 rnd2) in
      Vector3.y pos = 1 / 2
      ∧ Rabs (Vector3.x pos) <= 10 + rnd2 * 20
      ∧ Rabs (Vector3.z pos) <= 10 + rnd2 * 20
      ∧ - 30 < Vector3.x pos < 30
      ∧ - 30 < Vector3.z pos < 30
  end.
Proof.
  intros Hrnd. unfold Enemy_new, Enemy_spawnPosition; simpl.
  destruct (opt_enemy_position options) as [pos|]; [done|]. simpl.
  pose proof (COS_bound (rnd1 * PI * 2)) as Hcos.
  pose proof (SIN_bound (rnd1 * PI * 2)) as Hsin.
  assert (Hx : - (10 + rnd2 * 20) <= cos (rnd1 * PI * 2) * (10 + rnd2 * 20)
               <= 10 + rnd2 * 20) by nra.
  assert (Hz : - (10 + rnd2 * 20) <= sin (rnd1 * PI * 2) * (10 + rnd2 * 20)
               <= 10 + rnd2 * 20) by nra.
  split_and!; try done; try lra.
  - by apply Rabs_le.
  - by apply Rabs_le.
Qed.

Lemma Enemy_new_spawn_ring_witness :
  Vector3.y (enemy_position (Enemy_new no_EnemyOptions (1 / 4) (1 / 2))) = 1 / 2.
Proof.
  destruct (Enemy_new_spawn_ring no_EnemyOptions (1 / 4) (1 / 2)) as (Hy & _); [lra|].
  exact Hy.
Defined.

(** X18. Chasing keeps the height and turns the enemy to its target.  The
    target is another object with a mesh.  After [chaseTarget] the enemy's
    height is unchanged and it faces the target's position at its own
    height.  Within the attack range (horizontal distance at most
    [attackRange]) it does not move; outside, it has moved by the
    normalized horizontal offset times [speed * delta].  Its timer, its
    target and its life are as before, no call is recorded, and the driver
    and every other object are unchanged. *)
Theorem Enemy_chaseTarget_facing (this : Ref) (delta : R) (w : World) (e : Enemy)
    (t : Ref) (tp : Vector3.t) :
  get_enemy w this = Some e →
  enemy_target e = Some t →
  t ≠ this →
  mesh_of w t = Some tp →
  let offset := planar (Vector3.subVectors tp (enemy_position e)) in
  let w' := Enemy_chaseTarget this delta w in
  ∃ e1, get_enemy w' this = Some e1
        ∧ Vector3.y (enemy_position e1) = Vector3.y (enemy_position e)
        ∧ enemy_lookAt e1
          = Vector3.mk (Vector3.x tp) (Vector3.y (enemy_position e)) (Vector3.z tp)
        ∧ (Vector3.length offset <= enemy_attackRange e →
           enemy_position e1 = enemy_position e)
        ∧ (Vector3.length offset > enemy_attackRange e →
           enemy_position e1
           = Vector3.mk
               (Vector3.x (enemy_position e)
                + Vector3.x (Vector3.normalize offset) * enemy_speed e * delta)
               (Vector3.y (enemy_position e))
               (Vector3.z (enemy_position e)
                + Vector3.z (Vector3.normalize offset) * enemy_speed e * delta))
        ∧ enemy_timeSinceAttack e1 = enemy_timeSinceAttack e
        ∧ enemy_target e1 = enemy_target e
        ∧ enemy_alive e1 = enemy_alive e
        ∧ world_trace w' = world_trace w
        ∧ world_game w' = world_game w
        ∧ (∀ r, r ≠ this → world_heap w' !! r = world_heap w !! r).
Proof.
  intros He Ht Hne Htp offset w'. subst w'.
  assert (Htpos : Enemy_targetPosition w e = Some tp)
    by (unfold Enemy_targetPosition; by rewrite Ht).
  unfold Enemy_chaseTarget. rewrite He, Htpos.
  fold (planar (Vector3.subVectors tp (enemy_position e))). fold offset.
  set (e' := if decide (Vector3.length offset > enemy_attackRange e) then _ else e).
  assert (Hfields : enemy_target e' = enemy_target e
                    ∧ enemy_timeSinceAttack e' = enemy_timeSinceAttack e
                    ∧ enemy_alive e' = enemy_alive e
                    ∧ Vector3.y (enemy_position e') = Vector3.y (enemy_position e))
    by (subst e'; by case_decide).
  destruct Hfields as (Htarget & Htsa & Halive & Hheight).
  assert (Htpos' : Enemy_targetPosition (set_obj this (OEnemy e') w) e' = Some tp).
  { unfold Enemy_targetPosition, mesh_of. rewrite Htarget, Ht; simpl.
    rewrite lookup_insert_ne by done. exact Htp. }
  rewrite Htpos'. eexists. split; [apply get_enemy_set_obj|].
  change (enemy_position (set_enemy_lookAt ?pt e')) with (enemy_position e').
  change (enemy_lookAt (set_enemy_lookAt ?pt e')) with pt.
  change (enemy_timeSinceAttack (set_enemy_lookAt ?pt e')) with (enemy_timeSinceAttack e').
  change (enemy_target (set_enemy_lookAt ?pt e')) with (enemy_target e').
  change (enemy_alive (set_enemy_lookAt ?pt e')) with (enemy_alive e').
  split_and!; try done.
  - by rewrite Hheight.
  - intros Hnear. subst e'. rewrite decide_False; [done | lra].
  - intros Hfar. subst e'. by rewrite decide_True.
  - intros r Hr. by rewrite !heap_set_obj_ne.
Qed.

Lemma Enemy_chaseTarget_facing_witness :
  ∃ e1, get_enemy (Enemy_chaseTarget 0%nat (1 / 10) chasing_world) 0%nat = Some e1
        ∧ Vector3.y (enemy_position e1) = 0
        ∧ enemy_lookAt e1 = Vector3.mk 5 0 0.
Proof.
  destruct (Enemy_chaseTarget_facing 0%nat (1 / 10) chasing_world ready_enemy 1%nat
              (Vector3.mk 5 1 0) eq_refl eq_refl) as (e1 & Hget & Hy & Hlook & _).
  - discriminate.
  - reflexivity.
  - exists e1. split; [exact Hget|]. split; [exact Hy | exact Hlook].
Defined.

(** ** Enemy attack, death and score *)

(** X19. An attack on a player.  The target is a player and the test of
    [tryAttack] holds: the player's health becomes
    [max(0, health - damage)] (through [takeDamage]), the enemy's timer is 0
    and its colour the flash red, one timeout holding the colour before the
    flash is registered, and the trace gains the calls of [attack], of the
    player's [takeDamage] and the flash, in this order.  When that timeout
    fires the enemy has its previous colour again. *)
Theorem Enemy_tryAttack_player (this : Ref) (w : World) (e : Enemy) (t : Ref) (p : Player) :
  get_enemy w this = Some e →
  enemy_target e = Some t →
  get_player w t = Some p →
  attack_ready e (player_position p) →
  let w' := Enemy_tryAttack this w in
  get_player w' t = Some (Player_damaged (enemy_damage e) p)
  ∧ get_enemy w' this = Some (set_enemy_timeSinceAttack 0 (set_enemy_color 16711680 e))
  ∧ world_timers w' = world_timers w ++ [(this, enemy_color e)]
  ∧ world_trace w'
    = world_trace w ++ [CallAttack this; CallTakeDamage t (enemy_damage e); CallFlash this]
  ∧ get_enemy (Enemy_flashTimeout (this, enemy_color e) w') this
    = Some (set_enemy_timeSinceAttack 0 e).
Proof.
  intros He Ht Hp Hready; simpl.
  pose proof (proj1 (get_player_heap w t p) Hp) as Hheap.
  assert (Hne : t ≠ this).
  { intros ->. apply get_enemy_heap in He. congruence. }
  assert (Hattack : Enemy_attack this w
            = set_timers (world_timers w ++ [(this, enemy_color e)])
                (set_obj this (OEnemy (set_enemy_color 16711680 e))
                   (emit (CallFlash this)
                      (Player_takeDamage t (enemy_damage e) (emit (CallAttack this) w))))).
  { unfold Enemy_attack.
    change (get_enemy (emit (CallAttack this) w) this) with (get_enemy w this).
    rewrite He. unfold target_with. rewrite Ht; simpl. rewrite Hheap; simpl.
    unfold call_takeDamage; simpl. rewrite Hheap.
    change (get_enemy (emit (CallFlash this) ?w') this) with (get_enemy w' this).
    rewrite Player_takeDamage_get_enemy.
    change (get_enemy (emit (CallAttack this) w) this) with (get_enemy w this).
    rewrite He. f_equal.
    unfold Player_takeDamage, Player_updateUI.
    change (get_player (emit ?ev (emit (CallAttack this) w)) t) with (get_player w t).
    rewrite Hp, get_player_set_obj. reflexivity. }
  unfold Enemy_tryAttack. rewrite He.
  rewrite (Enemy_targetPosition_lookup w e t (OPlayer p) Ht Hheap); simpl.
  rewrite decide_True by exact Hready.
  rewrite Hattack. unfold modify_enemy.
  change (get_enemy (set_timers ?ts ?w') this) with (get_enemy w' this).
  rewrite get_enemy_set_obj.
  split_and!.
  - unfold get_player. change (world_heap (set_obj this ?o (set_timers ?ts ?w')))
      with (world_heap (set_obj this o w')).
    rewrite !heap_set_obj_ne by done.
    change (world_heap (emit ?ev ?w')) with (world_heap w').
    fold (get_player (Player_takeDamage t (enemy_damage e) (emit (CallAttack this) w)) t).
    by apply Player_takeDamage_get.
  - apply get_enemy_set_obj.
  - reflexivity.
  - change (world_trace (set_obj this ?o (set_timers ?ts (set_obj this ?o' (emit ?ev ?w')))))
      with (world_trace w' ++ [ev]).
    rewrite Player_takeDamage_trace. simpl. by rewrite <- !app_assoc.
  - unfold Enemy_flashTimeout, modify_enemy; simpl.
    rewrite get_enemy_set_obj. apply get_enemy_set_obj.
Qed.

Lemma origin_distance : Vector3.distanceTo Vector3.zero Vector3.zero = 0.
Proof.
  unfold Vector3.distanceTo, Vector3.length, Vector3.lengthSq; simpl.
  replace (_ + _ + _) with 0 by ring. apply sqrt_0.
Qed.

Lemma Enemy_tryAttack_player_witness :
  player_health <$> get_player (Enemy_tryAttack 0%nat attacking_world) 1%nat = Some 90.
Proof.
  destruct (Enemy_tryAttack_player 0%nat attacking_world ready_enemy 1%nat near_player
              eq_refl eq_refl eq_refl) as (Hget & _).
  - split; [|simpl; lra].
    change (Vector3.distanceTo Vector3.zero Vector3.zero <= 2).
    rewrite origin_distance. lra.
  - rewrite Hget. simpl. f_equal. unfold Player_damaged; simpl.
    rewrite decide_False by lra. simpl. lra.
Defined.

(** X20. A killed enemy is inert: after [takeDamage] every [update] of the
    enemy returns at once and leaves the world as it is, so the enemy does
    not move, attack or advance its timer any more. *)
Theorem Enemy_update_after_death (this : Ref) (delta amount : R) (w : World) (e : Enemy) :
  get_enemy w this = Some e →
  Enemy_update this delta (Enemy_takeDamage this amount w) = Enemy_takeDamage this amount w.
Proof.
  intros He. destruct (Enemy_takeDamage_spec this amount w e He) as [Hdead _].
  unfold Enemy_update. by rewrite Hdead.
Qed.

Lemma Enemy_update_after_death_witness :
  Enemy_update 0%nat (1 / 60) (Enemy_takeDamage 0%nat 3 enemy_in_game)
  = Enemy_takeDamage 0%nat 3 enemy_in_game.
Proof.
  apply (Enemy_update_after_death 0%nat (1 / 60) 3 enemy_in_game
           (set_enemy_game true (Enemy_new no_EnemyOptions 0 0))).
  reflexivity.
Defined.

Lemma evolves_get_enemy (w w' : World) (r : Ref) :
  evolves w w' → is_Some (get_enemy w r) → is_Some (get_enemy w' r).
Proof.
  intros [Hs _] [e He]. specialize (Hs r).
  rewrite (shape_at_enemy w r e He) in Hs. unfold shape_at in Hs. unfold get_enemy.
  destruct (world_heap w' !! r) as [[g|p|e'|o]|]; simplify_eq/=. by eexists.
Qed.

(** X21. After the [update] of a live enemy the enemy is still in the store
    and its height is between 0.3 and 0.7, whatever happened during the
    update (chase, attack, or wandering). *)
Theorem Enemy_update_height (this : Ref) (delta : R) (w : World) (e : Enemy) :
  get_enemy w this = Some e →
  enemy_alive e = true →
  ∃ e', get_enemy (Enemy_update this delta w) this = Some e'
        ∧ 3 / 10 <= Vector3.y (enemy_position e') <= 7 / 10.
Proof.
  intros He Halive. unfold Enemy_update. rewrite He, Halive.
  set (w1 := match Enemy_targetPosition _ e with Some _ => _ | None => _ end).
  assert (Hw1 : evolves w w1).
  { subst w1. case_match.
    - apply evolves_Enemy_tryAttack, evolves_Enemy_chaseTarget, evolves_modify_enemy;
        [done | apply evolves_refl].
    - unfold Enemy_wander. repeat apply evolves_modify_enemy; try done. apply evolves_refl. }
  destruct (evolves_get_enemy w w1 this Hw1) as [e1 He1]; [by eexists|].
  eexists. split; [by apply get_enemy_modify|]. simpl.
  pose proof (SIN_bound (world_now w1 * (5 / 1000))). lra.
Qed.

Lemma Enemy_update_height_witness :
  ∃ e', get_enemy (Enemy_update 0%nat (1 / 60) enemy_in_game) 0%nat = Some e'
        ∧ 3 / 10 <= Vector3.y (enemy_position e') <= 7 / 10.
Proof.
  apply (Enemy_update_height 0%nat (1 / 60) enemy_in_game
           (set_enemy_game true (Enemy_new no_EnemyOptions 0 0))); reflexivity.
Defined.

(** X22. Without a target an enemy wanders on its own and touches nothing
    else.  A live enemy whose target is unset, or has no mesh, is updated:
    no call is recorded, the driver and every other object are unchanged,
    the timer has advanced by [delta], the enemy is still alive with the
    target it had, its horizontal position has moved by [sin] and [cos] of
    the clock time in seconds, times [speed * delta * 0.5], and its height
    is the bounce height of the clock time. *)
Theorem Enemy_update_wander (this : Ref) (delta : R) (w : World) (e : Enemy) :
  get_enemy w this = Some e →
  enemy_alive e = true →
  Enemy_targetPosition w e = None →
  let w' := Enemy_update this delta w in
  let time := world_now w * (1 / 1000) in
  world_trace w' = world_trace w
  ∧ world_game w' = world_game w
  ∧ (∀ r, r ≠ this → world_heap w' !! r = world_heap w !! r)
  ∧ ∃ e', get_enemy w' this = Some e'
          ∧ enemy_timeSinceAttack e' = enemy_timeSinceAttack e + delta
          ∧ enemy_alive e' = true
          ∧ enemy_target e' = enemy_target e
          ∧ enemy_position e'
            = Vector3.mk
                (Vector3.x (enemy_position e) + sin time * enemy_speed e * delta * (1 / 2))
                (1 / 2 + sin (world_now w * (5 / 1000)) * (2 / 10))
                (Vector3.z (enemy_position e) + cos time * enemy_speed e * delta * (1 / 2)).
Proof.
  intros He Halive Htp; simpl. unfold Enemy_update. rewrite He, Halive.
  assert (Htick : modify_enemy this (Enemy_tick delta) w
                  = set_obj this (OEnemy (Enemy_tick delta e)) w)
    by (unfold modify_enemy; by rewrite He).
  assert (Htp' : Enemy_targetPosition (modify_enemy this (Enemy_tick delta) w) e = None).
  { rewrite Htick. unfold Enemy_targetPosition, mesh_of in *.
    destruct (enemy_target e) as [t|]; [simpl in *|done].
    destruct (decide (this = t)) as [->|Hne].
    - apply get_enemy_heap in He. by rewrite He in Htp.
    - by rewrite lookup_insert_ne. }
  rewrite Htp'. unfold Enemy_wander. rewrite Htick. unfold modify_enemy.
  rewrite !get_enemy_set_obj.
  split_and!; try done.
  - intros r Hne. by rewrite !heap_set_obj_ne.
  - eexists. split; [done|]. simpl. rewrite Halive. split_and!; reflexivity.
Qed.

Lemma Enemy_update_wander_witness :
  world_trace (Enemy_update 0%nat (1 / 60) enemy_in_game) = []
  ∧ game_entities (world_game (Enemy_update 0%nat (1 / 60) enemy_in_game)) = [0%nat].
Proof.
  destruct (Enemy_update_wander 0%nat (1 / 60) enemy_in_game
              (set_enemy_game true (Enemy_new no_EnemyOptions 0 0))
              eq_refl eq_refl eq_refl) as (Htrace & Hgame & _).
  rewrite Htrace, Hgame. split; reflexivity.
Defined.

(** What one [takeDamage] on an enemy does to the player it targets. *)
Lemma Enemy_takeDamage_player (this : Ref) (amount : R) (w : World) (e : Enemy)
    (t : Ref) (p : Player) :
  get_enemy w this = Some e →
  enemy_target e = Some t →
  get_player w t = Some p →
  get_player (Enemy_takeDamage this amount w) t = Some (Player_scored 10 p).
Proof.
  intros He Ht Hp.
  pose proof (proj1 (get_player_heap w t p) Hp) as Hheap.
  assert (Hne : this ≠ t).
  { intros ->. apply get_enemy_heap in He. congruence. }
  unfold Enemy_takeDamage, Enemy_die.
  set (w0 := emit (CallTakeDamage this amount) w).
  assert (He0 : get_enemy w0 this = Some e) by done.
  rewrite (get_enemy_modify _ _ _ _ He0).
  assert (Hmod : modify_enemy this (set_enemy_alive false) w0
                 = set_obj this (OEnemy (set_enemy_alive false e)) w0)
    by (unfold modify_enemy; by rewrite He0).
  rewrite Hmod.
  assert (Hp1 : get_player (set_obj this (OEnemy (set_enemy_alive false e)) w0) t = Some p).
  { unfold get_player. rewrite heap_set_obj_ne by done. subst w0; simpl. by rewrite Hheap. }
  assert (Htw : target_with has_addScore (set_obj this (OEnemy (set_enemy_alive false e)) w0)
                  (set_enemy_alive false e) = Some t).
  { unfold target_with; simpl. rewrite Ht; simpl.
    rewrite lookup_insert_ne by done. by rewrite Hheap. }
  rewrite Htw.
  assert (Hscored : get_player
                      (Player_addScore t 10
                         (set_obj this (OEnemy (set_enemy_alive false e)) w0)) t
                    = Some (Player_scored 10 p))
    by (by apply Player_addScore_get).
  destruct (enemy_game (set_enemy_alive false e)); [|done].
  unfold get_player. rewrite Game_remove_heap. exact Hscored.
Qed.

(** X23. Every hit on an enemy awards ten points to the player it targets:
    [n] calls of [takeDamage] on the enemy, whatever the amounts, add
    [10 * n] to the player's score and leave the player's health as it
    was. *)
Theorem Enemy_hits_score (this : Ref) (amounts : list R) (w : World) (e : Enemy)
    (t : Ref) (p : Player) :
  get_enemy w this = Some e →
  enemy_target e = Some t →
  get_player w t = Some p →
  ∃ p', get_player (Enemy_hits this amounts w) t = Some p'
        ∧ player_score p' = player_score p + 10 * INR (length amounts)
        ∧ player_health p' = player_health p.
Proof.
  revert w e p. induction amounts as [|amount amounts IH]; intros w e p He Ht Hp.
  - exists p. simpl. split_and!; [done | lra | done].
  - destruct (Enemy_takeDamage_spec this amount w e He) as [He1 _].
    pose proof (Enemy_takeDamage_player this amount w e t p He Ht Hp) as Hp1.
    destruct (IH _ _ _ He1 Ht Hp1) as (p' & Hget & Hscore & Hhealth).
    exists p'. split; [exact Hget|]. split; [|exact Hhealth].
    rewrite Hscore. change (length (amount :: amounts)) with (S (length amounts)).
    rewrite S_INR. simpl. lra.
Qed.

Lemma Enemy_hits_score_witness :
  ∃ p', get_player (Enemy_hits 0%nat [1; 1] hunted_world) 1%nat = Some p'
        ∧ player_score p' = 20.
Proof.
  destruct (Enemy_hits_score 0%nat [1; 1] hunted_world (set_enemy_game true ready_enemy)
              1%nat
              (set_player_position (Vector3.mk 0 1 0)
                 (set_player_refs true false near_player))
              eq_refl eq_refl eq_refl) as (p' & Hget & Hscore & _).
  exists p'. split; [exact Hget|]. rewrite Hscore. simpl. lra.
Defined.

Lemma Player_addScore_game (this : Ref) (points : R) (w : World) :
  world_game (Player_addScore this points w) = world_game w.
Proof.
  unfold Player_addScore. case_match; [|done]. by rewrite Player_updateUI_game.
Qed.

(** [die] of an enemy that holds the driver ends in [game.remove(this)],
    called in a world with the driver and the shapes of the one before. *)
Lemma Enemy_die_as_remove (this : Ref) (w : World) (e : Enemy) :
  get_enemy w this = Some e →
  enemy_game e = true →
  ∃ w2, Enemy_die this w = Game_remove this w2
        ∧ world_game w2 = world_game w
        ∧ evolves w w2.
Proof.
  intros He Hgame. unfold Enemy_die.
  rewrite (get_enemy_modify _ _ _ _ He).
  change (enemy_game (set_enemy_alive false e)) with (enemy_game e). rewrite Hgame.
  eexists. split; [reflexivity|].
  assert (Hmod : evolves w (modify_enemy this (set_enemy_alive false) w))
    by (apply evolves_modify_enemy; [done | apply evolves_refl]).
  case_match.
  - split; [by rewrite Player_addScore_game, modify_enemy_game|].
    by apply evolves_Player_addScore.
  - split; [apply modify_enemy_game | done].
Qed.

Lemma in_step_transfer (w w2 : World) :
  world_game w2 = world_game w → same_shapes w w2 → in_step w → in_step w2.
Proof.
  intros Hgame Hshapes (Hents & Hscene & Hiff). unfold in_step. rewrite Hgame.
  split; [done|]. split; [done|].
  intros r. by rewrite (same_shapes_mesh w w2 r Hshapes).
Qed.

(** X24. A hit takes the enemy out of the world.  In a world whose
    collection and scene are in step, [takeDamage] on an enemy that holds
    the driver leaves them in step with the enemy in neither, and every
    other entity where it was. *)
Theorem Enemy_takeDamage_removes (this : Ref) (amount : R) (w : World) (e : Enemy) :
  in_step w →
  get_enemy w this = Some e →
  enemy_game e = true →
  let w' := Enemy_takeDamage this amount w in
  in_step w'
  ∧ (this ∉ game_entities (world_game w'))
  ∧ (this ∉ game_scene (world_game w'))
  ∧ (∀ r, r ≠ this →
          r ∈ game_entities (world_game w') ↔ r ∈ game_entities (world_game w)).
Proof.
  intros Hstep He Hgame; simpl. unfold Enemy_takeDamage.
  destruct (Enemy_die_as_remove this (emit (CallTakeDamage this amount) w) e He Hgame)
    as (w2 & -> & Hg2 & Hev2).
  assert (Hstep2 : in_step w2).
  { apply (in_step_transfer w); [exact Hg2 | | exact Hstep].
    intros r. apply (proj1 Hev2 r). }
  pose proof (run_op_in_step (OpRemove this) w2 Hstep2 I) as Hstep'.
  simpl in Hstep'. destruct Hstep2 as (Hnd & _ & _).
  change (world_game (emit (CallTakeDamage this amount) w)) with (world_game w) in Hg2.
  assert (Hents : (this ∉ game_entities (world_game (Game_remove this w2)))
                  ∧ (∀ r, r ≠ this →
                          r ∈ game_entities (world_game (Game_remove this w2))
                          ↔ r ∈ game_entities (world_game w))).
  { rewrite Game_remove_entities, Hg2 in *.
    destruct (indexOf this (game_entities (world_game w))) as [i|] eqn:Hi.
    - split.
      + intros Hin. by apply (elem_of_delete_first this this _ i Hnd Hi) in Hin as [_ ?].
      + intros r Hne. rewrite (elem_of_delete_first this r _ i Hnd Hi). tauto.
    - split; [by apply indexOf_None | done]. }
  destruct Hents as [Hnotin Hothers].
  split; [exact Hstep'|]. split; [exact Hnotin|]. split; [|exact Hothers].
  destruct Hstep' as (_ & _ & Hiff). intros Hin. apply Hiff in Hin as [Hin _]. done.
Qed.

Lemma hunted_world_in_step : in_step hunted_world.
Proof.
  unfold hunted_world, run_ops. cbn [foldl].
  apply run_op_in_step; [apply run_op_in_step|].
  - apply World_new_in_step.
  - apply not_elem_of_nil.
  - cbn [run_op]. rewrite Game_add_entities.
    intros Hin%list_elem_of_singleton. discriminate.
Qed.

Lemma Enemy_takeDamage_removes_witness :
  (0%nat ∉ game_entities (world_game (Enemy_takeDamage 0%nat 3 hunted_world)))
  ∧ (0%nat ∉ game_scene (world_game (Enemy_takeDamage 0%nat 3 hunted_world))).
Proof.
  destruct (Enemy_takeDamage_removes 0%nat 3 hunted_world (set_enemy_game true ready_enemy)
              hunted_world_in_step eq_refl eq_refl) as (_ & Hents & Hscene & _).
  split; [exact Hents | exact Hscene].
Defined.

(** ** What no tick changes *)

(** A tick never changes what an object is. *)
Lemma animate_same_shapes (delta : R) (w : World) :
  same_shapes w (Game_animate delta w).
Proof.
  unfold Game_animate. destruct (game_isRunning (world_game w)); [|done].
  unfold forEach.
  apply (forEach_from_inv (same_shapes w)).
  { intros body w' Hw' _ r.
    rewrite (proj1 (evolves_run_actions body w' w' (evolves_refl w')) r). apply Hw'. }
  apply (forEach_from_inv (same_shapes w)); [|done].
  intros a w' Hw' _ r.
  rewrite (proj1 (update_entity_step delta a a w') r). apply Hw'.
Qed.

(** X25. A tick never retargets an enemy.  Whatever the world is (calm or
    not, running or not) and whatever the tick does to the enemy (moving
    it, making it attack, killing it or taking it out of the world),
    after [animate] the enemy object is still at its reference and its
    target is the one it had: the driver and the three entity classes
    never assign [target] after the constructor. *)
Theorem Game_animate_keeps_targets (delta : R) (w : World) (r : Ref) (e : Enemy) :
  get_enemy w r = Some e →
  ∃ e', get_enemy (Game_animate delta w) r = Some e'
        ∧ enemy_target e' = enemy_target e.
Proof.
  intros He. apply get_enemy_heap in He.
  pose proof (animate_same_shapes delta w r) as Hshape.
  unfold shape_at in Hshape. rewrite He in Hshape. simpl in Hshape.
  unfold get_enemy.
  destruct (world_heap (Game_animate delta w) !! r) as [[gr|pl|e'|o]|];
    simpl in Hshape; try discriminate.
  exists e'. split; [done|]. congruence.
Qed.

Lemma Game_animate_keeps_targets_witness :
  ∃ e', get_enemy (Game_start (1 / 60) hunted_world) 0%nat = Some e'
        ∧ enemy_target e' = Some 1%nat.
Proof.
  apply (Game_animate_keeps_targets (1 / 60)
           (set_game (set_isRunning true (world_game hunted_world)) hunted_world)
           0%nat (set_enemy_game true ready_enemy)).
  reflexivity.
Defined.
